(** * Joystick.c: the step-sequencing and report-synthesis engine

    A shallow embedding of [GetNextReport] and of the three step executors
    it dispatches to ([ExecuteStep], [ExecuteStepLoop],
    [ExecuteStepPartialLoop]), together with the compiled-in step tables.

    C [int]s are modelled as [Z].  Every counter of the engine stays within
    a few hundred on the states the engine can reach (lemma
    [reachable_invariant] below), far inside the range of a 16-bit [int],
    so no arithmetic of the engine overflows. *)

From Stdlib Require Import ZArith NArith List Bool Lia.
Import ListNotations.
Open Scope Z_scope.

(** ** Joystick.h

    The header is not part of the sources at hand.  Its constants are
    taken as parameters; [pokken_pad] below instantiates them for the
    concrete runs. *)
Class Joystick_h : Set := {
  STICK_MIN : Z;
  STICK_CENTER : Z;
  STICK_MAX : Z;
  HAT_CENTER : Z;
  SWITCH_B : Z;
  SWITCH_A : Z;
  SWITCH_X : Z;
  SWITCH_L : Z;
  SWITCH_R : Z;
  SWITCH_PLUS : Z
}.

(** Modelled from the spec: the declaration of [Step_t] (in Joystick.h).
    One atomic input event: a button bitmask, a horizontal and a vertical
    stick value and a duration in poll ticks, in the order in which every
    table row initialises them; each field holds the value the table gives
    it. *)
Record Step_t : Set := mkStep {
  sButton : Z;
  sLX : Z;
  sLY : Z;
  Duration : Z
}.

(** Modelled from the spec: the declaration of
    [USB_JoystickReport_Input_t] (in Joystick.h).  The outgoing frame: a
    button bitmask, a directional-pad value and four analog axes; these are
    the fields [GetNextReport] and the executors assign. *)
Record Report : Set := mkReport {
  Button : Z;
  HAT : Z;
  LX : Z;
  LY : Z;
  RX : Z;
  RY : Z
}.

(** The globals read and written by [GetNextReport]. *)
Record PlayerState : Set := mkState {
  phase : Z;
  step_num : Z;
  loop_num : Z;
  egg_slot : Z;
  echoes : Z;
  last_report : Report
}.

(** [StepData[i]]: defined only inside the array. *)
Definition index (StepData : list Step_t) (i : Z) : option Step_t :=
  if i <? 0 then None else nth_error StepData (Z.to_nat i).

Section Engine.
Context {hdr : Joystick_h}.

Definition BUTTON_DURATION : Z := 10.

Definition SyncController : list Step_t :=
  [ mkStep 0 STICK_CENTER STICK_CENTER 75;
    mkStep (Z.lor SWITCH_L SWITCH_R) STICK_CENTER STICK_CENTER BUTTON_DURATION;
    mkStep 0 STICK_CENTER STICK_CENTER 75;
    mkStep (Z.lor SWITCH_L SWITCH_R) STICK_CENTER STICK_CENTER BUTTON_DURATION;
    mkStep 0 STICK_CENTER STICK_CENTER 75;
    mkStep SWITCH_A STICK_CENTER STICK_CENTER BUTTON_DURATION;
    mkStep 0 STICK_CENTER STICK_CENTER 75;
    mkStep SWITCH_A STICK_CENTER STICK_CENTER BUTTON_DURATION ].

Definition Recall : list Step_t :=
  [ mkStep 0 STICK_CENTER STICK_CENTER 75;
    mkStep SWITCH_X STICK_CENTER STICK_CENTER BUTTON_DURATION;
    mkStep 0 STICK_CENTER STICK_CENTER 75;
    mkStep SWITCH_A STICK_CENTER STICK_CENTER BUTTON_DURATION;
    mkStep 0 STICK_CENTER STICK_CENTER 300;
    mkStep 0 170 STICK_CENTER 25;
    mkStep 0 STICK_CENTER STICK_CENTER 75;
    mkStep SWITCH_A STICK_CENTER STICK_CENTER BUTTON_DURATION;
    mkStep 0 STICK_CENTER STICK_CENTER 75;
    mkStep SWITCH_A STICK_CENTER STICK_CENTER BUTTON_DURATION;
    mkStep 0 STICK_CENTER STICK_CENTER 300 ].

Definition BikeBig : list Step_t :=
  [ mkStep 0 STICK_MAX STICK_CENTER 75;
    mkStep SWITCH_B STICK_MAX STICK_CENTER BUTTON_DURATION ].

Definition Bike : list Step_t :=
  [ mkStep 0 STICK_MAX STICK_CENTER 100 ].

Definition BreakEgg : list Step_t :=
  [ mkStep 0 STICK_CENTER STICK_CENTER 75;
    mkStep SWITCH_B STICK_CENTER STICK_CENTER BUTTON_DURATION ].

Definition GetEgg : list Step_t :=
  [ mkStep 0 STICK_CENTER STICK_CENTER 300;
    mkStep SWITCH_PLUS STICK_CENTER STICK_CENTER BUTTON_DURATION;
    mkStep 0 STICK_MIN STICK_MIN 300;
    mkStep SWITCH_A STICK_CENTER STICK_CENTER BUTTON_DURATION;
    mkStep 0 STICK_CENTER STICK_CENTER 75;
    mkStep SWITCH_A STICK_CENTER STICK_CENTER BUTTON_DURATION;
    mkStep 0 STICK_CENTER STICK_CENTER 600;
    mkStep SWITCH_B STICK_CENTER STICK_CENTER BUTTON_DURATION;
    mkStep 0 STICK_CENTER STICK_CENTER 200;
    mkStep SWITCH_A STICK_CENTER STICK_CENTER BUTTON_DURATION;
    mkStep 0 STICK_CENTER STICK_CENTER 75;
    mkStep SWITCH_B STICK_CENTER STICK_CENTER BUTTON_DURATION;
    mkStep 0 STICK_CENTER STICK_CENTER 300;
    mkStep 0 STICK_CENTER STICK_MAX 25;
    mkStep 0 STICK_CENTER STICK_CENTER 75;
    mkStep SWITCH_A STICK_CENTER STICK_CENTER BUTTON_DURATION;
    mkStep 0 STICK_CENTER STICK_CENTER 300;
    mkStep SWITCH_A STICK_CENTER STICK_CENTER BUTTON_DURATION;
    mkStep 0 STICK_CENTER STICK_CENTER 200;
    mkStep SWITCH_A STICK_CENTER STICK_CENTER BUTTON_DURATION;
    mkStep 0 STICK_CENTER STICK_CENTER 200;
    mkStep SWITCH_PLUS STICK_CENTER STICK_CENTER BUTTON_DURATION ].

(** ** The executors

    Each takes the report under construction ([*ReportData]) and the
    globals, and returns the written report with the new globals; [None]
    when [StepData[step_num]] falls outside the table. *)

Definition ExecuteStep (ReportData : Report) (StepData : list Step_t)
    (size : Z) (g : PlayerState) : option (Report * PlayerState) :=
  match index StepData (step_num g) with
  | None => None
  | Some st =>
      let ReportData :=
        mkReport (Z.lor (Button ReportData) (sButton st)) (HAT ReportData)
                 (sLX st) (sLY st) (RX ReportData) (RY ReportData) in
      let echoes' := Duration st in
      let step_num' := step_num g + 1 in
      if step_num' >=? size
      then Some (ReportData,
                 mkState (phase g + 1) 0 (loop_num g) (egg_slot g)
                         echoes' (last_report g))
      else Some (ReportData,
                 mkState (phase g) step_num' (loop_num g) (egg_slot g)
                         echoes' (last_report g))
  end.

Definition ExecuteStepLoop (ReportData : Report) (StepData : list Step_t)
    (size num_its : Z) (g : PlayerState) : option (Report * PlayerState) :=
  match index StepData (step_num g) with
  | None => None
  | Some st =>
      let ReportData :=
        mkReport (Z.lor (Button ReportData) (sButton st)) (HAT ReportData)
                 (sLX st) (sLY st) (RX ReportData) (RY ReportData) in
      let echoes' := Duration st in
      let step_num' := step_num g + 1 in
      if step_num' >=? size
      then
        let loop_num' := loop_num g + 1 in
        if loop_num' >=? num_its
        then Some (ReportData,
                   mkState (phase g + 1) 0 0 (egg_slot g)
                           echoes' (last_report g))
        else Some (ReportData,
                   mkState (phase g) 0 loop_num' (egg_slot g)
                           echoes' (last_report g))
      else Some (ReportData,
                 mkState (phase g) step_num' (loop_num g) (egg_slot g)
                         echoes' (last_report g))
  end.

Definition ExecuteStepPartialLoop (ReportData : Report)
    (StepData : list Step_t) (size loop_start loop_end num_its : Z)
    (g : PlayerState) : option (Report * PlayerState) :=
  match index StepData (step_num g) with
  | None => None
  | Some st =>
      let ReportData :=
        mkReport (Z.lor (Button ReportData) (sButton st)) (HAT ReportData)
                 (sLX st) (sLY st) (RX ReportData) (RY ReportData) in
      let echoes' := Duration st in
      let step_num' := step_num g + 1 in
      let '(step_num', loop_num') :=
        if (step_num' =? loop_end) && (loop_num g <? num_its - 1)
        then (loop_start, loop_num g + 1)
        else (step_num', loop_num g) in
      if step_num' >=? size
      then Some (ReportData,
                 mkState (phase g + 1) 0 0 (egg_slot g)
                         echoes' (last_report g))
      else Some (ReportData,
                 mkState (phase g) step_num' loop_num' (egg_slot g)
                         echoes' (last_report g))
  end.

(** ** GetNextReport *)

(** The report after the [memset] and the five assignments. *)
Definition empty_report : Report :=
  mkReport 0 HAT_CENTER STICK_CENTER STICK_CENTER STICK_CENTER STICK_CENTER.

(** The [if (phase == ...)] chain of the main procedure. *)
Definition main_procedure (ReportData : Report) (g : PlayerState)
    : option (Report * PlayerState) :=
  if phase g =? 0 then ExecuteStep ReportData SyncController 8 g
  else if phase g =? 1 then
    ExecuteStepPartialLoop ReportData GetEgg 22 13 15 (egg_slot g + 1) g
  else if phase g =? 2 then ExecuteStep ReportData Recall 11 g
  else if phase g =? 3 then ExecuteStepLoop ReportData BikeBig 2 55 g
  else if phase g =? 4 then ExecuteStep ReportData Recall 11 g
  else Some (ReportData, g).

(** [if (phase == 5)]: repeat the main procedure. *)
Definition repeat_main_procedure (g : PlayerState) : PlayerState :=
  if phase g =? 5
  then mkState 1 (step_num g) (loop_num g) (Z.rem (egg_slot g + 1) 5)
               (echoes g) (last_report g)
  else g.

Definition GetNextReport (g : PlayerState) : option (Report * PlayerState) :=
  let ReportData := empty_report in
  if echoes g >? 0
  then Some (last_report g,
             mkState (phase g) (step_num g) (loop_num g) (egg_slot g)
                     (echoes g - 1) (last_report g))
  else
    match main_procedure ReportData g with
    | None => None
    | Some (ReportData, g) =>
        let g := repeat_main_procedure g in
        Some (ReportData,
              mkState (phase g) (step_num g) (loop_num g) (egg_slot g)
                      (echoes g) ReportData)
    end.

(** The globals as the C initialisers leave them ([last_report] has static
    storage, hence all zero). *)
Definition initial_state : PlayerState :=
  mkState 0 0 0 0 0 (mkReport 0 0 0 0 0 0).

(** ** Poll ticks *)

Definition tick (o : option PlayerState) : option PlayerState :=
  match o with
  | None => None
  | Some g => option_map snd (GetNextReport g)
  end.

(** The globals after [n] calls of [GetNextReport]. *)
Definition run (n : N) (g : PlayerState) : option PlayerState :=
  N.iter n tick (Some g).

Definition state_at (n : N) : option PlayerState := run n initial_state.

(** The report that call number [n] (counted from 0) returns. *)
Definition report_at (n : N) : option Report :=
  match state_at n with
  | None => None
  | Some g => option_map fst (GetNextReport g)
  end.

(** ** Vocabulary of the properties *)

(** What an executor writes onto the report for a step. *)
Definition overlay (r : Report) (st : Step_t) : Report :=
  mkReport (Z.lor (Button r) (sButton st)) (HAT r) (sLX st) (sLY st)
           (RX r) (RY r).

(** The table the main procedure hands to the executor in each phase. *)
Definition active_table (g : PlayerState) : option (list Step_t) :=
  if phase g =? 0 then Some SyncController
  else if phase g =? 1 then Some GetEgg
  else if phase g =? 2 then Some Recall
  else if phase g =? 3 then Some BikeBig
  else if phase g =? 4 then Some Recall
  else None.

(** The step the executor reads when it runs on [g]. *)
Definition active_step (g : PlayerState) : option Step_t :=
  match active_table g with
  | Some t => index t (step_num g)
  | None => None
  end.

(** The call on [g] takes the echo branch. *)
Definition replays (g : PlayerState) : bool := echoes g >? 0.

(** The step fetched by the call on [g] occupies exactly [k] calls: the
    call on [g] fetches, the [k - 1] calls after it replay, and the call
    after those fetches again. *)
Definition occupies (g : PlayerState) (k : N) : Prop :=
  replays g = false /\
  (forall j, (0 < j < k)%N ->
     exists gj, run j g = Some gj /\ replays gj = true) /\
  (exists g', run k g = Some g' /\ replays g' = false).

(** [n] consecutive invocations of an executor, each on the report [r]:
    the step indices read, in order, and the globals left behind. *)
Fixpoint visits (exec : Report -> PlayerState -> option (Report * PlayerState))
    (r : Report) (n : nat) (g : PlayerState)
    : option (list Z * PlayerState) :=
  match n with
  | O => Some ([], g)
  | S n' =>
      match exec r g with
      | None => None
      | Some (_, g') =>
          match visits exec r n' g' with
          | None => None
          | Some (l, g'') => Some (step_num g :: l, g'')
          end
      end
  end.

(** [a; a+1; ...], [k] indices. *)
Fixpoint zrange (a : Z) (k : nat) : list Z :=
  match k with
  | O => []
  | S k' => a :: zrange (a + 1) k'
  end.

(** The indices of the half-open interval [[a, b)]. *)
Definition range (a b : Z) : list Z := zrange a (Z.to_nat (b - a)).

(** The [size] argument the main procedure passes in each phase. *)
Definition table_size (p : Z) : Z :=
  if p =? 0 then 8
  else if p =? 1 then 22
  else if p =? 2 then 11
  else if p =? 3 then 2
  else 11.

(** What holds of the globals between any two calls. *)
Definition engine_invariant (g : PlayerState) : Prop :=
  0 <= phase g <= 4 /\
  0 <= step_num g < table_size (phase g) /\
  (phase g = 1 -> 0 <= loop_num g < egg_slot g + 1) /\
  (phase g = 3 -> 0 <= loop_num g < 55) /\
  (phase g <> 1 -> phase g <> 3 -> loop_num g = 0) /\
  0 <= egg_slot g < 5 /\
  0 <= echoes g <= 600.

(** The moves of the phase scheduler on (phase, egg_slot). *)
Inductive sched_step : Z * Z -> Z * Z -> Prop :=
| sched_stay p e : sched_step (p, e) (p, e)
| sched_sync_done e : sched_step (0, e) (1, e)
| sched_next p e : 1 <= p < 4 -> sched_step (p, e) (p + 1, e)
| sched_repeat e : sched_step (4, e) (1, (e + 1) mod 5).

(** Poll ticks, counting how often the final phase has completed. *)
Definition count_tick (acc : option (PlayerState * N))
    : option (PlayerState * N) :=
  match acc with
  | None => None
  | Some (g, c) =>
      match GetNextReport g with
      | None => None
      | Some (_, g') =>
          Some (g', if (phase g =? 4) && (phase g' =? 1)
                    then N.succ c else c)
      end
  end.

Definition completions_at (n : N) : option (PlayerState * N) :=
  N.iter n count_tick (Some (initial_state, 0%N)).

(** Poll ticks, remembering the step behind the cached report. *)
Definition held_tick (acc : option (PlayerState * option Step_t))
    : option (PlayerState * option Step_t) :=
  match acc with
  | None => None
  | Some (g, held) =>
      match GetNextReport g with
      | None => None
      | Some (_, g') =>
          Some (g', if replays g then held else active_step g)
      end
  end.

Definition held_at (n : N) : option (PlayerState * option Step_t) :=
  N.iter n held_tick (Some (initial_state, None)).

(** The step in force on call number [n]: the one the call fetches, or the
    one whose report it replays. *)
Definition step_on_tick (n : N) : option Step_t :=
  match held_at n with
  | None => None
  | Some (g, held) => if replays g then held else active_step g
  end.

End Engine.

(** The values of the Pokken pad header, for running the engine on
    concrete inputs. *)
Definition pokken_pad : Joystick_h :=
  {| STICK_MIN := 0; STICK_CENTER := 128; STICK_MAX := 255;
     HAT_CENTER := 8;
     SWITCH_B := 2; SWITCH_A := 4; SWITCH_X := 8;
     SWITCH_L := 16; SWITCH_R := 32; SWITCH_PLUS := 512 |}.

(** The calls a table takes when each of its steps is fetched once: one
    call for the fetch and one for every echo. *)
Fixpoint table_ticks (t : list Step_t) : N :=
  match t with
  | [] => 0%N
  | st :: t' => (1 + Z.to_N (Duration st) + table_ticks t')%N
  end.

(** The globals once the pending echoes have been replayed. *)
Definition sit_out (g : PlayerState) : PlayerState :=
  mkState (phase g) (step_num g) (loop_num g) (egg_slot g) 0 (last_report g).

Section Fetches.
Context {hdr : Joystick_h}.

(** The engine with the echoes left out: [k] fetching calls in a row, the
    steps they fetch and the globals they leave. *)
Fixpoint fetches (k : nat) (g : PlayerState)
    : option (list Step_t * PlayerState) :=
  match k with
  | O => Some ([], g)
  | S k' =>
      match active_step g, GetNextReport g with
      | Some st, Some (_, g1) =>
          match fetches k' (sit_out g1) with
          | None => None
          | Some (l, g2) => Some (st :: l, g2)
          end
      | _, _ => None
      end
  end.

End Fetches.

(** ** HID_Task and the main loop

    The USB stack is the environment of [HID_Task].  What it answers
    during one call of [HID_Task] is a [usb_poll]; the calls by which
    [HID_Task] acts on it are recorded, in order, as [usb_call]s.  A busy-wait loop
    around a stream call is modelled by the number of attempts the
    environment fails before it returns [ENDPOINT_RWSTREAM_NoError]. *)

Inductive endpoint : Set := JOYSTICK_OUT_EPADDR | JOYSTICK_IN_EPADDR.

Record usb_poll : Set := mkPoll {
  (** [USB_DeviceState == DEVICE_STATE_Configured] *)
  device_configured : bool;
  (** [Endpoint_IsOUTReceived()] *)
  is_out_received : bool;
  (** [Endpoint_IsReadWriteAllowed()] *)
  is_read_write_allowed : bool;
  (** failed [Endpoint_Read_Stream_LE] attempts *)
  read_failures : nat;
  (** [Endpoint_IsINReady()] *)
  is_in_ready : bool;
  (** failed [Endpoint_Write_Stream_LE] attempts *)
  write_failures : nat
}.

Inductive usb_call : Set :=
| Endpoint_SelectEndpoint (ep : endpoint)
| Endpoint_Read_Stream_LE (no_error : bool)
| Endpoint_ClearOUT
| Endpoint_Write_Stream_LE (JoystickInputData : Report) (no_error : bool)
| Endpoint_ClearIN
| USB_USBTask.

Section Transport.
Context {hdr : Joystick_h}.

Definition HID_Task (env : usb_poll) (g : PlayerState)
    : option (list usb_call * PlayerState) :=
  if negb (device_configured env) then Some ([], g)
  else
    let out_part :=
      Endpoint_SelectEndpoint JOYSTICK_OUT_EPADDR ::
      (if is_out_received env
       then (if is_read_write_allowed env
             then repeat (Endpoint_Read_Stream_LE false) (read_failures env)
                    ++ [Endpoint_Read_Stream_LE true]
             else [])
              ++ [Endpoint_ClearOUT]
       else []) in
    let in_select := [Endpoint_SelectEndpoint JOYSTICK_IN_EPADDR] in
    if is_in_ready env
    then
      match GetNextReport g with
      | None => None
      | Some (JoystickInputData, g') =>
          Some (out_part ++ in_select
                  ++ repeat (Endpoint_Write_Stream_LE JoystickInputData false)
                            (write_failures env)
                  ++ [Endpoint_Write_Stream_LE JoystickInputData true;
                      Endpoint_ClearIN],
                g')
      end
    else Some (out_part ++ in_select, g).

(** The first iterations of the [for (;;)] loop of [main], one per
    element of [envs]. *)
Fixpoint main_loop (envs : list usb_poll) (g : PlayerState)
    : option (list usb_call * PlayerState) :=
  match envs with
  | [] => Some ([], g)
  | env :: envs' =>
      match HID_Task env g with
      | None => None
      | Some (calls, g') =>
          match main_loop envs' g' with
          | None => None
          | Some (calls', g'') => Some (calls ++ USB_USBTask :: calls', g'')
          end
      end
  end.

End Transport.

(** The reports of the stream writes that went through. *)
Fixpoint delivered (calls : list usb_call) : list Report :=
  match calls with
  | [] => []
  | Endpoint_Write_Stream_LE r true :: calls' => r :: delivered calls'
  | _ :: calls' => delivered calls'
  end.

(** The iterations in which [HID_Task] gets as far as [GetNextReport]. *)
Definition served (envs : list usb_poll) : nat :=
  length (filter (fun env => device_configured env && is_in_ready env) envs).

(** * Properties *)

Section EngineFacts.
Context {hdr : Joystick_h}.

(** ** Basic facts about [index], [run] and the executors *)

Lemma index_Some (t : list Step_t) (i : Z) (st : Step_t) :
  index t i = Some st -> 0 <= i < Z.of_nat (length t).
Proof.
  unfold index. destruct (Z.ltb_spec i 0); [discriminate|].
  intros E. assert (Z.to_nat i < length t)%nat.
  { apply nth_error_Some. congruence. }
  lia.
Qed.

Lemma index_defined (t : list Step_t) (i : Z) :
  0 <= i < Z.of_nat (length t) -> exists st, index t i = Some st.
Proof.
  intros B. unfold index. destruct (Z.ltb_spec i 0); [lia|].
  destruct (nth_error t (Z.to_nat i)) eqn:E; [eauto|].
  apply nth_error_None in E. lia.
Qed.

Lemma index_In (t : list Step_t) (i : Z) (st : Step_t) :
  index t i = Some st -> In st t.
Proof.
  unfold index. destruct (i <? 0); [discriminate|]. apply nth_error_In.
Qed.

Lemma tick_None (n : N) : N.iter n tick None = None.
Proof.
  induction n using N.peano_ind; [reflexivity|].
  rewrite N.iter_succ, IHn. reflexivity.
Qed.

Lemma run_0 (g : PlayerState) : run 0 g = Some g.
Proof. reflexivity. Qed.

Lemma run_succ (n : N) (g : PlayerState) :
  run (N.succ n) g = tick (run n g).
Proof. unfold run. apply N.iter_succ. Qed.

Lemma run_add (n m : N) (g : PlayerState) :
  run (n + m) g = match run n g with
                  | Some g' => run m g'
                  | None => None
                  end.
Proof.
  unfold run. rewrite N.add_comm, N.iter_add.
  destruct (N.iter n tick (Some g)); [reflexivity | apply tick_None].
Qed.

Lemma run_1 (g : PlayerState) : run 1 g = option_map snd (GetNextReport g).
Proof. reflexivity. Qed.

(** The echo branch, spelled out. *)
Lemma replay_tick (g : PlayerState) :
  echoes g > 0 ->
  GetNextReport g =
    Some (last_report g,
          mkState (phase g) (step_num g) (loop_num g) (egg_slot g)
                  (echoes g - 1) (last_report g)).
Proof.
  intros E. unfold GetNextReport.
  destruct (Z.gtb_spec (echoes g) 0); [reflexivity | lia].
Qed.

(** [k] replays in a row only count the echoes down. *)
Lemma replay_run (k : N) (g : PlayerState) :
  Z.of_N k <= echoes g ->
  run k g = Some (mkState (phase g) (step_num g) (loop_num g) (egg_slot g)
                          (echoes g - Z.of_N k) (last_report g)).
Proof.
  induction k using N.peano_ind; intros B.
  - rewrite run_0, Z.sub_0_r. destruct g; reflexivity.
  - rewrite run_succ, IHk by lia. cbn [tick].
    rewrite replay_tick by (cbn; lia). cbn. f_equal. f_equal. lia.
Qed.

(** What each executor returns once the table read succeeds. *)
Lemma ExecuteStep_result r t size g st :
  index t (step_num g) = Some st ->
  ExecuteStep r t size g =
    Some (overlay r st,
          if step_num g + 1 >=? size
          then mkState (phase g + 1) 0 (loop_num g) (egg_slot g)
                       (Duration st) (last_report g)
          else mkState (phase g) (step_num g + 1) (loop_num g) (egg_slot g)
                       (Duration st) (last_report g)).
Proof.
  intros E. unfold ExecuteStep. rewrite E. cbv zeta.
  destruct (step_num g + 1 >=? size); reflexivity.
Qed.

Lemma ExecuteStepLoop_result r t size n g st :
  index t (step_num g) = Some st ->
  ExecuteStepLoop r t size n g =
    Some (overlay r st,
          if step_num g + 1 >=? size
          then if loop_num g + 1 >=? n
               then mkState (phase g + 1) 0 0 (egg_slot g)
                            (Duration st) (last_report g)
               else mkState (phase g) 0 (loop_num g + 1) (egg_slot g)
                            (Duration st) (last_report g)
          else mkState (phase g) (step_num g + 1) (loop_num g) (egg_slot g)
                       (Duration st) (last_report g)).
Proof.
  intros E. unfold ExecuteStepLoop. rewrite E. cbv zeta.
  destruct (step_num g + 1 >=? size); [|reflexivity].
  destruct (loop_num g + 1 >=? n); reflexivity.
Qed.

Lemma ExecuteStepPartialLoop_result r t size ls le n g st :
  index t (step_num g) = Some st ->
  ExecuteStepPartialLoop r t size ls le n g =
    Some (overlay r st,
          if (step_num g + 1 =? le) && (loop_num g <? n - 1)
          then if ls >=? size
               then mkState (phase g + 1) 0 0 (egg_slot g)
                            (Duration st) (last_report g)
               else mkState (phase g) ls (loop_num g + 1) (egg_slot g)
                            (Duration st) (last_report g)
          else if step_num g + 1 >=? size
               then mkState (phase g + 1) 0 0 (egg_slot g)
                            (Duration st) (last_report g)
               else mkState (phase g) (step_num g + 1) (loop_num g)
                            (egg_slot g) (Duration st) (last_report g)).
Proof.
  intros E. unfold ExecuteStepPartialLoop. rewrite E. cbv zeta.
  destruct ((step_num g + 1 =? le) && (loop_num g <? n - 1)); cbv beta iota.
  - destruct (ls >=? size); reflexivity.
  - destruct (step_num g + 1 >=? size); reflexivity.
Qed.

Lemma repeat_main_procedure_echoes g :
  echoes (repeat_main_procedure g) = echoes g.
Proof. unfold repeat_main_procedure. destruct (phase g =? 5); reflexivity. Qed.

(** The main procedure writes the active step over the report it is given
    and loads the echo counter with that step's duration. *)
Lemma main_procedure_active r g st :
  active_step g = Some st ->
  exists g', main_procedure r g = Some (overlay r st, g') /\
             echoes g' = Duration st.
Proof.
  unfold active_step, active_table, main_procedure. intros E.
  repeat match type of E with
         | context [if ?c then _ else _] => destruct c
         end; try discriminate;
    first [ rewrite (ExecuteStep_result _ _ _ _ _ E)
          | rewrite (ExecuteStepLoop_result _ _ _ _ _ _ E)
          | rewrite (ExecuteStepPartialLoop_result _ _ _ _ _ _ _ _ E) ];
    eexists; (split; [reflexivity|]);
    repeat match goal with
           | |- context [if ?c then _ else _] => destruct c
           end; reflexivity.
Qed.

(** A call that fetches: the report is the empty report overlaid with the
    active step; it is cached, and the echo counter holds the duration. *)
Lemma fetch_tick g st :
  echoes g <= 0 -> active_step g = Some st ->
  exists g', GetNextReport g = Some (overlay empty_report st, g') /\
             echoes g' = Duration st /\
             last_report g' = overlay empty_report st.
Proof.
  intros E A. unfold GetNextReport.
  destruct (Z.gtb_spec (echoes g) 0); [lia|].
  destruct (main_procedure_active empty_report g st A) as (g' & -> & D).
  eexists. split; [reflexivity|]. cbn.
  rewrite repeat_main_procedure_echoes. auto.
Qed.

(** ** Echo / duration throttle *)

(** C7.  On a tick whose echo count is positive, [GetNextReport] returns
    the cached [last_report] and decrements the echo count; phase, step
    index, loop count, slot counter and the cached report are unchanged
    (no executor has run). *)
Theorem echo_replay_frame (g : PlayerState) :
  echoes g > 0 ->
  exists g',
    GetNextReport g = Some (last_report g, g') /\
    echoes g' = echoes g - 1 /\
    phase g' = phase g /\
    step_num g' = step_num g /\
    loop_num g' = loop_num g /\
    egg_slot g' = egg_slot g /\
    last_report g' = last_report g.
Proof.
  intros E. rewrite replay_tick by assumption.
  eexists. split; [reflexivity|]. cbn. repeat split.
Qed.

(** C1 (amended).  A fetched step of duration [d >= 0] occupies exactly
    [d + 1] calls: the call that fetches it and the [d] replays after it
    all return the same report, and the call after those fetches the next
    step. *)
Theorem echo_stretching (g : PlayerState) (st : Step_t) :
  replays g = false ->
  active_step g = Some st ->
  0 <= Duration st ->
  occupies g (Z.to_N (Duration st) + 1) /\
  exists r,
    forall j, (j < Z.to_N (Duration st) + 1)%N ->
      exists gj, run j g = Some gj /\
                 option_map fst (GetNextReport gj) = Some r.
Proof.
  intros F A D.
  assert (E : echoes g <= 0).
  { unfold replays in F. destruct (Z.gtb_spec (echoes g) 0); [discriminate | lia]. }
  destruct (fetch_tick g st E A) as (g' & T & Ed & L).
  assert (R : forall k, (k <= Z.to_N (Duration st))%N ->
            run (1 + k) g =
              Some (mkState (phase g') (step_num g') (loop_num g')
                            (egg_slot g') (Duration st - Z.of_N k)
                            (last_report g'))).
  { intros k B. rewrite run_add, run_1, T. cbn [option_map snd].
    rewrite replay_run by lia. rewrite Ed. reflexivity. }
  split.
  - split; [assumption|]. split.
    + intros j B. replace j with (1 + (j - 1))%N by lia.
      rewrite R by lia. eexists. split; [reflexivity|].
      unfold replays. cbn.
      destruct (Z.gtb_spec (Duration st - Z.of_N (j - 1)) 0);
        [reflexivity | lia].
    + rewrite N.add_comm, R by lia. eexists. split; [reflexivity|].
      unfold replays. cbn.
      destruct (Z.gtb_spec (Duration st - Z.of_N (Z.to_N (Duration st))) 0);
        [lia | reflexivity].
  - exists (overlay empty_report st). intros j B.
    destruct (N.eq_dec j 0) as [->|NZ].
    + rewrite run_0. eexists. split; [reflexivity|]. rewrite T. reflexivity.
    + replace j with (1 + (j - 1))%N by lia. rewrite R by lia.
      eexists. split; [reflexivity|].
      rewrite replay_tick by (cbn; lia). cbn. rewrite L. reflexivity.
Qed.

(** ** Partial loop against linear execution *)

(** C6 (amended).  With repetition count 1 and a loop count of zero (as it
    is whenever a phase begins), [ExecuteStepPartialLoop] returns exactly
    what [ExecuteStep] returns on the same report, table and globals. *)
Theorem partial_loop_once_is_linear r t size ls le (g : PlayerState) :
  loop_num g = 0 ->
  ExecuteStepPartialLoop r t size ls le 1 g = ExecuteStep r t size g.
Proof.
  intros L. unfold ExecuteStepPartialLoop, ExecuteStep.
  destruct (index t (step_num g)) as [st|]; [|reflexivity]. cbv zeta.
  rewrite L. cbn [Z.sub Z.ltb Z.compare Z.add Z.opp Z.pos_sub].
  rewrite andb_false_r.
  destruct (step_num g + 1 >=? size); reflexivity.
Qed.

(** ** Executor runs *)

Section Visits.
Variable exec : Report -> PlayerState -> option (Report * PlayerState).
Variable r : Report.

Lemma visits_app a b g l1 g1 l2 g2 :
  visits exec r a g = Some (l1, g1) ->
  visits exec r b g1 = Some (l2, g2) ->
  visits exec r (a + b) g = Some (l1 ++ l2, g2).
Proof.
  revert g l1. induction a as [|a IH]; intros g l1 A B.
  - injection A as <- <-. exact B.
  - cbn [visits Nat.add] in *.
    destruct (exec r g) as [[r' g']|]; [|discriminate].
    destruct (visits exec r a g') as [[l g'']|] eqn:V; [|discriminate].
    injection A as <- <-. rewrite (IH _ _ V B). reflexivity.
Qed.

Lemma visits_split a b g l g2 :
  visits exec r (a + b) g = Some (l, g2) ->
  exists l1 g1 l2,
    visits exec r a g = Some (l1, g1) /\
    visits exec r b g1 = Some (l2, g2) /\ l = l1 ++ l2.
Proof.
  revert g l. induction a as [|a IH]; intros g l A.
  - exists [], g, l. auto.
  - cbn [visits Nat.add] in *.
    destruct (exec r g) as [[r' g']|]; [|discriminate].
    destruct (visits exec r (a + b) g') as [[l' g'']|] eqn:V; [|discriminate].
    injection A as <- <-.
    destruct (IH _ _ V) as (l1 & g1 & l2 & -> & V2 & ->).
    exists (step_num g :: l1), g1, l2. auto.
Qed.

Hypothesis phase_mono :
  forall g r' g', exec r g = Some (r', g') -> phase g <= phase g'.

Lemma visits_phase_mono n g l g' :
  visits exec r n g = Some (l, g') -> phase g <= phase g'.
Proof.
  revert g l. induction n as [|n IH]; intros g l V; cbn [visits] in V.
  - injection V as <- <-. lia.
  - destruct (exec r g) as [[r' g1]|] eqn:E; [|discriminate].
    destruct (visits exec r n g1) as [[l' g'']|] eqn:V'; [|discriminate].
    injection V as <- <-.
    apply phase_mono in E. apply IH in V'. lia.
Qed.

(** If the phase is unchanged after [a] invocations, it was unchanged
    after every smaller number of them. *)
Lemma visits_phase_const a g l g1 :
  visits exec r a g = Some (l, g1) -> phase g1 = phase g ->
  forall k, (k <= a)%nat ->
    exists lk gk, visits exec r k g = Some (lk, gk) /\ phase gk = phase g.
Proof.
  intros V P k B. replace a with (k + (a - k))%nat in V by lia.
  destruct (visits_split _ _ _ _ _ V) as (l1 & gk & l2 & V1 & V2 & _).
  exists l1, gk. split; [assumption|].
  apply visits_phase_mono in V1. apply visits_phase_mono in V2. lia.
Qed.

(** A stretch on which every invocation merely advances the step index. *)
Lemma visits_segment p j k :
  forall a g,
    (forall g0, a <= step_num g0 < a + Z.of_nat k ->
                phase g0 = p -> loop_num g0 = j ->
       exists r' g1, exec r g0 = Some (r', g1) /\
                     step_num g1 = step_num g0 + 1 /\
                     phase g1 = p /\ loop_num g1 = j) ->
    step_num g = a -> phase g = p -> loop_num g = j ->
    exists g', visits exec r k g = Some (zrange a k, g') /\
               step_num g' = a + Z.of_nat k /\
               phase g' = p /\ loop_num g' = j.
Proof.
  induction k as [|k IH]; intros a g ST S P L.
  - exists g. cbn. repeat split; auto; lia.
  - destruct (ST g) as (r' & g1 & E & S1 & P1 & L1); auto; [lia|].
    destruct (IH (a + 1) g1) as (g' & V & S' & P' & L'); auto; [|lia|].
    + intros g0 B. apply ST. lia.
    + exists g'. cbn [visits zrange]. rewrite E, V, S.
      repeat split; auto; lia.
Qed.

End Visits.

Lemma zrange_app a m n :
  zrange a (m + n) = zrange a m ++ zrange (a + Z.of_nat m) n.
Proof.
  revert a. induction m as [|m IH]; intros a.
  - cbn. f_equal. lia.
  - cbn [zrange Nat.add app]. rewrite IH. do 3 f_equal. lia.
Qed.

Lemma range_split a b c :
  a <= b <= c -> range a c = range a b ++ range b c.
Proof.
  intros B. unfold range.
  replace (Z.to_nat (c - a)) with (Z.to_nat (b - a) + Z.to_nat (c - b))%nat by lia.
  rewrite zrange_app. do 2 f_equal. lia.
Qed.

Lemma range_last a b : a < b -> range a b = range a (b - 1) ++ [b - 1].
Proof.
  intros B. rewrite (range_split a (b - 1) b) by lia. f_equal.
  unfold range. replace (Z.to_nat (b - (b - 1))) with 1%nat by lia. reflexivity.
Qed.

Lemma count_zrange i k :
  forall a,
    count_occ Z.eq_dec (zrange a k) i =
      if (a <=? i) && (i <? a + Z.of_nat k) then 1%nat else 0%nat.
Proof.
  induction k as [|k IH]; intros a.
  - cbn. destruct (Z.leb_spec a i), (Z.ltb_spec i (a + 0)); cbn; auto; lia.
  - cbn [zrange count_occ]. rewrite IH.
    destruct (Z.eq_dec a i), (Z.leb_spec (a + 1) i),
      (Z.ltb_spec i (a + 1 + Z.of_nat k)), (Z.leb_spec a i),
      (Z.ltb_spec i (a + Z.of_nat (S k))); cbn; lia.
Qed.

Lemma count_range a b i :
  a <= b ->
  count_occ Z.eq_dec (range a b) i =
    if (a <=? i) && (i <? b) then 1%nat else 0%nat.
Proof.
  intros B. unfold range. rewrite count_zrange.
  replace (a + Z.of_nat (Z.to_nat (b - a))) with b by lia. reflexivity.
Qed.

Lemma count_concat_repeat (l : list Z) i n :
  count_occ Z.eq_dec (concat (repeat l n)) i =
    (n * count_occ Z.eq_dec l i)%nat.
Proof.
  induction n as [|n IH]; [reflexivity|].
  cbn [repeat concat]. rewrite count_occ_app, IH. lia.
Qed.

Lemma concat_repeat_snoc (l : list Z) n :
  concat (repeat l n) ++ l = concat (repeat l (S n)).
Proof.
  induction n as [|n IH]; cbn [repeat concat] in *.
  - rewrite app_nil_r. reflexivity.
  - rewrite <- app_assoc, IH. reflexivity.
Qed.

(** ** Linear execution *)

Lemma ExecuteStep_phase_mono t size r g r' g' :
  ExecuteStep r t size g = Some (r', g') -> phase g <= phase g'.
Proof.
  unfold ExecuteStep. destruct (index t (step_num g)); [|discriminate].
  cbv zeta. destruct (step_num g + 1 >=? size); intros [= _ <-]; cbn; lia.
Qed.

Lemma ExecuteStep_advance t size r g :
  size <= Z.of_nat (length t) ->
  0 <= step_num g -> step_num g + 1 < size ->
  exists r' g1, ExecuteStep r t size g = Some (r', g1) /\
                step_num g1 = step_num g + 1 /\
                phase g1 = phase g /\ loop_num g1 = loop_num g.
Proof.
  intros LE B1 B2.
  destruct (index_defined t (step_num g)) as (st & E); [lia|].
  rewrite (ExecuteStep_result _ _ _ _ _ E).
  destruct (Z.geb_spec (step_num g + 1) size); [lia|].
  do 2 eexists. split; [reflexivity|]. cbn. auto.
Qed.

(** C4.  On a non-empty table of length [L], with the step index at zero,
    [L] consecutive invocations of [ExecuteStep] read the indices
    [0, 1, ..., L-1] in this order without leaving the phase: the [k]-th
    of them ORs the step's button mask onto the report, writes its LX and
    LY, and sets the echo count to its duration.  After the [L]-th the
    phase has advanced by one and the step index is zero again. *)
Theorem linear_progression r (t : list Step_t) (size : Z) (g : PlayerState) :
  size = Z.of_nat (length t) ->
  0 < size ->
  step_num g = 0 ->
  (forall k, (k < length t)%nat ->
     exists l gk st gk',
       visits (fun r => ExecuteStep r t size) r k g = Some (l, gk) /\
       phase gk = phase g /\ step_num gk = Z.of_nat k /\
       index t (Z.of_nat k) = Some st /\
       ExecuteStep r t size gk =
         Some (mkReport (Z.lor (Button r) (sButton st)) (HAT r)
                        (sLX st) (sLY st) (RX r) (RY r), gk') /\
       echoes gk' = Duration st) /\
  (exists g',
     visits (fun r => ExecuteStep r t size) r (length t) g =
       Some (range 0 size, g') /\
     phase g' = phase g + 1 /\ step_num g' = 0).
Proof.
  intros SZ NE S0.
  assert (SEG : forall k, (k < length t)%nat ->
            exists gk, visits (fun r => ExecuteStep r t size) r k g =
                         Some (zrange 0 k, gk) /\
                       step_num gk = 0 + Z.of_nat k /\
                       phase gk = phase g /\ loop_num gk = loop_num g).
  { intros k B. apply visits_segment; auto.
    intros g0 B0 P0 L0.
    destruct (ExecuteStep_advance t size r g0) as (r' & g1 & E & ? & ? & ?);
      [lia..|].
    exists r', g1. repeat split; congruence. }
  split.
  - intros k B. destruct (SEG k B) as (gk & V & Sk & Pk & _).
    destruct (index_defined t (Z.of_nat k)) as (st & E); [lia|].
    assert (E' : index t (step_num gk) = Some st) by (rewrite Sk; exact E).
    exists (zrange 0 k), gk, st. eexists.
    split; [exact V|]. split; [exact Pk|]. split; [lia|].
    split; [exact E|]. split.
    + rewrite (ExecuteStep_result _ _ _ _ _ E'). reflexivity.
    + destruct (step_num gk + 1 >=? size); reflexivity.
  - destruct (SEG (length t - 1)%nat) as (g1 & V & S1 & P1 & _); [lia|].
    destruct (index_defined t (step_num g1)) as (st & E); [lia|].
    pose proof (ExecuteStep_result r t size g1 st E) as X.
    destruct (Z.geb_spec (step_num g1 + 1) size); [|lia].
    eexists. split; [|split].
    + replace (length t) with (length t - 1 + 1)%nat at 1 by lia.
      rewrite (range_last 0 size) by lia. unfold range.
      replace (Z.to_nat (size - 1 - 0)) with (length t - 1)%nat by lia.
      replace (size - 1) with (step_num g1) by lia.
      eapply visits_app; [exact V|]. cbn [visits]. rewrite X. reflexivity.
    + cbn. lia.
    + reflexivity.
Qed.

(** ** Full-loop execution *)

Lemma ExecuteStepLoop_phase_mono t size n r g r' g' :
  ExecuteStepLoop r t size n g = Some (r', g') -> phase g <= phase g'.
Proof.
  unfold ExecuteStepLoop. destruct (index t (step_num g)); [|discriminate].
  cbv zeta. destruct (step_num g + 1 >=? size);
    [destruct (loop_num g + 1 >=? n)|]; intros [= _ <-]; cbn; lia.
Qed.

Section FullLoop.
Variables (r : Report) (t : list Step_t) (size n : Z).
Hypothesis size_length : size = Z.of_nat (length t).
Hypothesis nonempty : 0 < size.

Let exec := fun r => ExecuteStepLoop r t size n.

(** All steps of a pass but the last. *)
Lemma loop_pass_body g :
  step_num g = 0 ->
  exists g', visits exec r (length t - 1) g =
               Some (range 0 (size - 1), g') /\
             step_num g' = size - 1 /\
             phase g' = phase g /\ loop_num g' = loop_num g.
Proof.
  intros S0.
  destruct (visits_segment exec r (phase g) (loop_num g) (length t - 1) 0 g)
    as (g' & V & S' & P' & L'); auto.
  - intros g0 B0 P0 L0.
    destruct (index_defined t (step_num g0)) as (st & E); [lia|].
    unfold exec. rewrite (ExecuteStepLoop_result _ _ _ _ _ _ E).
    destruct (Z.geb_spec (step_num g0 + 1) size); [lia|].
    do 2 eexists. split; [reflexivity|]. cbn. auto.
  - exists g'. unfold range.
    replace (Z.to_nat (size - 1 - 0)) with (length t - 1)%nat by lia.
    repeat split; auto; lia.
Qed.

(** A pass that is not the last one wraps around and counts. *)
Lemma loop_pass g :
  step_num g = 0 -> loop_num g + 1 < n ->
  exists g', visits exec r (length t) g = Some (range 0 size, g') /\
             step_num g' = 0 /\ phase g' = phase g /\
             loop_num g' = loop_num g + 1.
Proof.
  intros S0 LT.
  destruct (loop_pass_body g S0) as (g1 & V & S1 & P1 & L1).
  destruct (index_defined t (step_num g1)) as (st & E); [lia|].
  pose proof (ExecuteStepLoop_result r t size n g1 st E) as X.
  destruct (Z.geb_spec (step_num g1 + 1) size); [|lia].
  destruct (Z.geb_spec (loop_num g1 + 1) n); [lia|].
  eexists. split; [|split; [|split]].
  - replace (length t) with (length t - 1 + 1)%nat at 1 by lia.
    rewrite (range_last 0 size) by lia. rewrite <- S1 at 2.
    eapply visits_app; [exact V|]. unfold exec. cbn [visits].
    rewrite X. reflexivity.
  - reflexivity.
  - cbn. lia.
  - cbn. lia.
Qed.

Lemma loop_passes m :
  forall g,
    step_num g = 0 -> loop_num g + Z.of_nat m < n ->
    exists g', visits exec r (m * length t) g =
                 Some (concat (repeat (range 0 size) m), g') /\
               step_num g' = 0 /\ phase g' = phase g /\
               loop_num g' = loop_num g + Z.of_nat m.
Proof.
  induction m as [|m IH]; intros g S0 LT.
  - exists g. cbn. repeat split; auto; lia.
  - destruct (loop_pass g S0) as (g1 & V1 & S1 & P1 & L1); [lia|].
    destruct (IH g1 S1) as (g' & V' & S' & P' & L'); [lia|].
    exists g'. split; [|repeat split; lia].
    cbn [Nat.mul repeat concat]. eapply visits_app; eassumption.
Qed.

(** Everything up to, and excluding, the very last step-advance. *)
Lemma loop_before_last g :
  1 <= n -> step_num g = 0 -> loop_num g = 0 ->
  exists g',
    visits exec r ((Z.to_nat n - 1) * length t + (length t - 1)) g =
      Some (concat (repeat (range 0 size) (Z.to_nat n - 1))
              ++ range 0 (size - 1), g') /\
    step_num g' = size - 1 /\ phase g' = phase g /\ loop_num g' = n - 1.
Proof.
  intros N1 S0 L0.
  destruct (loop_passes (Z.to_nat n - 1) g S0) as (g1 & V1 & S1 & P1 & L1);
    [lia|].
  destruct (loop_pass_body g1 S1) as (g' & V' & S' & P' & L').
  exists g'. split; [|repeat split; lia].
  eapply visits_app; eassumption.
Qed.

End FullLoop.

(** C5.  On a non-empty table of length [L], with step index and loop
    count at zero and [n >= 1], [ExecuteStepLoop] stays in its phase for
    every number of step-advances below [n * L]; the [n * L] advances read
    the whole table end-to-end [n] times, and the last of them advances
    the phase and leaves both the loop count and the step index at zero. *)
Theorem full_loop_count r (t : list Step_t) (size n : Z) (g : PlayerState) :
  size = Z.of_nat (length t) ->
  0 < size ->
  1 <= n ->
  step_num g = 0 ->
  loop_num g = 0 ->
  (forall k, (k < Z.to_nat n * length t)%nat ->
     exists l gk,
       visits (fun r => ExecuteStepLoop r t size n) r k g = Some (l, gk) /\
       phase gk = phase g) /\
  (exists g',
     visits (fun r => ExecuteStepLoop r t size n) r
            (Z.to_nat n * length t) g =
       Some (concat (repeat (range 0 size) (Z.to_nat n)), g') /\
     phase g' = phase g + 1 /\ loop_num g' = 0 /\ step_num g' = 0).
Proof.
  intros SZ NE N1 S0 L0.
  destruct (loop_before_last r t size n SZ NE g N1 S0 L0)
    as (g1 & V & S1 & P1 & L1).
  assert (T : (Z.to_nat n * length t =
               (Z.to_nat n - 1) * length t + (length t - 1) + 1)%nat).
  { replace (Z.to_nat n) with (S (Z.to_nat n - 1)) at 1 by lia.
    cbn [Nat.mul]. lia. }
  split.
  - intros k B.
    eapply visits_phase_const; [|exact V|exact P1|lia].
    intros g0 r' g'. apply ExecuteStepLoop_phase_mono.
  - destruct (index_defined t (step_num g1)) as (st & E); [lia|].
    pose proof (ExecuteStepLoop_result r t size n g1 st E) as X.
    destruct (Z.geb_spec (step_num g1 + 1) size); [|lia].
    destruct (Z.geb_spec (loop_num g1 + 1) n); [|lia].
    eexists. split; [|split; [|split]].
    + assert (LEQ : concat (repeat (range 0 size) (Z.to_nat n)) =
                (concat (repeat (range 0 size) (Z.to_nat n - 1))
                   ++ range 0 (size - 1)) ++ [step_num g1]).
      { replace (Z.to_nat n) with (S (Z.to_nat n - 1)) at 1 by lia.
        rewrite <- concat_repeat_snoc, <- app_assoc. f_equal.
        rewrite S1. apply range_last. lia. }
      rewrite T, LEQ.
      eapply visits_app; [exact V|]. cbn [visits]. rewrite X. reflexivity.
    + cbn. lia.
    + reflexivity.
    + reflexivity.
Qed.

(** ** Partial-loop execution *)

Lemma ExecuteStepPartialLoop_phase_mono t size ls le n r g r' g' :
  ExecuteStepPartialLoop r t size ls le n g = Some (r', g') ->
  phase g <= phase g'.
Proof.
  unfold ExecuteStepPartialLoop.
  destruct (index t (step_num g)); [|discriminate]. cbv zeta.
  destruct ((step_num g + 1 =? le) && (loop_num g <? n - 1)); cbv beta iota;
    match goal with |- context [if ?c then _ else _] => destruct c end;
    intros [= _ <-]; cbn; lia.
Qed.

Section PartialLoop.
Variables (r : Report) (t : list Step_t) (size loop_start loop_end n : Z).
Hypothesis size_length : size = Z.of_nat (length t).
Hypothesis bounds : 0 <= loop_start < loop_end /\ loop_end <= size.

Let exec := fun r => ExecuteStepPartialLoop r t size loop_start loop_end n.

(** A stretch [[a, a + k)] that neither ends a loop pass that has to be
    repeated nor reaches the end of the table. *)
Lemma partial_segment k a g :
  0 <= a -> a + Z.of_nat k < size ->
  (loop_num g < n - 1 -> a + Z.of_nat k < loop_end) ->
  step_num g = a ->
  exists g', visits exec r k g = Some (zrange a k, g') /\
             step_num g' = a + Z.of_nat k /\
             phase g' = phase g /\ loop_num g' = loop_num g.
Proof.
  intros A B J S0.
  apply visits_segment; auto.
  intros g0 B0 P0 L0.
  destruct (index_defined t (step_num g0)) as (st & E); [lia|].
  unfold exec. rewrite (ExecuteStepPartialLoop_result _ _ _ _ _ _ _ _ E).
  destruct (Z.eqb_spec (step_num g0 + 1) loop_end),
    (Z.ltb_spec (loop_num g0) (n - 1)); cbn [andb]; try lia;
    (destruct (Z.geb_spec (step_num g0 + 1) size); [lia|]);
    do 2 eexists; (split; [reflexivity|]); cbn; auto.
Qed.

(** A pass over [[loop_start, loop_end)] that has to be repeated ends with
    the jump back. *)
Lemma partial_pass g :
  step_num g = loop_start -> loop_num g < n - 1 ->
  exists g', visits exec r (Z.to_nat (loop_end - loop_start)) g =
               Some (range loop_start loop_end, g') /\
             step_num g' = loop_start /\ phase g' = phase g /\
             loop_num g' = loop_num g + 1.
Proof.
  intros S0 LT.
  destruct (partial_segment (Z.to_nat (loop_end - loop_start) - 1)
              loop_start g) as (g1 & V & S1 & P1 & L1); try lia.
  destruct (index_defined t (step_num g1)) as (st & E); [lia|].
  pose proof (ExecuteStepPartialLoop_result r t size loop_start loop_end n
                g1 st E) as X.
  destruct (Z.eqb_spec (step_num g1 + 1) loop_end); [|lia].
  destruct (Z.ltb_spec (loop_num g1) (n - 1)); [|lia].
  cbn [andb] in X. destruct (Z.geb_spec loop_start size); [lia|].
  eexists. split; [|split; [|split]].
  - replace (Z.to_nat (loop_end - loop_start))
      with (Z.to_nat (loop_end - loop_start) - 1 + 1)%nat at 1 by lia.
    rewrite (range_last loop_start loop_end) by lia. unfold range.
    replace (Z.to_nat (loop_end - 1 - loop_start))
      with (Z.to_nat (loop_end - loop_start) - 1)%nat by lia.
    replace (loop_end - 1) with (step_num g1) by lia.
    eapply visits_app; [exact V|]. unfold exec. cbn [visits].
    rewrite X. reflexivity.
  - reflexivity.
  - cbn. lia.
  - cbn. lia.
Qed.

Lemma partial_passes m :
  forall g,
    step_num g = loop_start -> loop_num g + Z.of_nat m <= n - 1 ->
    exists g',
      visits exec r (m * Z.to_nat (loop_end - loop_start)) g =
        Some (concat (repeat (range loop_start loop_end) m), g') /\
      step_num g' = loop_start /\ phase g' = phase g /\
      loop_num g' = loop_num g + Z.of_nat m.
Proof.
  induction m as [|m IH]; intros g S0 LT.
  - exists g. cbn. repeat split; auto; lia.
  - destruct (partial_pass g S0) as (g1 & V1 & S1 & P1 & L1); [lia|].
    destruct (IH g1 S1) as (g' & V' & S' & P' & L'); [lia|].
    exists g'. split; [|repeat split; lia].
    cbn [Nat.mul repeat concat]. eapply visits_app; eassumption.
Qed.

(** Everything up to, and excluding, the very last step-advance. *)
Lemma partial_before_last g :
  1 <= n -> step_num g = 0 -> loop_num g = 0 ->
  exists g',
    visits exec r
      (Z.to_nat loop_start
       + ((Z.to_nat n - 1) * Z.to_nat (loop_end - loop_start)
          + Z.to_nat (size - 1 - loop_start))) g =
      Some (range 0 loop_start
              ++ concat (repeat (range loop_start loop_end) (Z.to_nat n - 1))
              ++ range loop_start (size - 1), g') /\
    step_num g' = size - 1 /\ phase g' = phase g /\ loop_num g' = n - 1.
Proof.
  intros N1 S0 L0.
  destruct (partial_segment (Z.to_nat loop_start) 0 g)
    as (g1 & V1 & S1 & P1 & L1); try lia.
  destruct (partial_passes (Z.to_nat n - 1) g1)
    as (g2 & V2 & S2 & P2 & L2); try lia.
  destruct (partial_segment (Z.to_nat (size - 1 - loop_start)) loop_start g2)
    as (g3 & V3 & S3 & P3 & L3); try lia.
  exists g3. split; [|repeat split; lia].
  eapply visits_app; [|eapply visits_app; eassumption].
  unfold range. rewrite Z.sub_0_r. exact V1.
Qed.

End PartialLoop.

(** The indices a partial loop reads, and how often each of them. *)
Lemma partial_loop_counts ls le size n i :
  0 <= ls < le -> le <= size -> 0 <= i < size ->
  count_occ Z.eq_dec
    (range 0 ls ++ concat (repeat (range ls le) n) ++ range le size) i =
    if (ls <=? i) && (i <? le) then n else 1%nat.
Proof.
  intros B1 B2 B3.
  rewrite !count_occ_app, count_concat_repeat, !count_range by lia.
  destruct (Z.leb_spec 0 i), (Z.ltb_spec i ls), (Z.leb_spec ls i),
    (Z.ltb_spec i le), (Z.leb_spec le i), (Z.ltb_spec i size);
    cbn [andb]; lia.
Qed.

(** C2.  On a table of length [L] with [0 <= start < end <= L] and
    [n >= 1], starting with step index and loop count at zero,
    [ExecuteStepPartialLoop] stays in its phase for every number of
    invocations below [L + (n-1) * (end - start)]; these invocations read
    the indices before [start] once, then [[start, end)] [n] times in a
    row, then the indices from [end] on once, after which the phase
    advances with step index and loop count at zero: every index inside
    [[start, end)] is read [n] times, every other index once.  With
    [start = 13], [end = 15], [n = 5] on the 22 steps of [GetEgg], indices
    13 and 14 are read five times each. *)
Theorem partial_loop_bounds :
  (forall r (t : list Step_t) (size loop_start loop_end n : Z)
          (g : PlayerState),
     size = Z.of_nat (length t) ->
     0 <= loop_start < loop_end /\ loop_end <= size ->
     1 <= n ->
     step_num g = 0 ->
     loop_num g = 0 ->
     let exec := fun r =>
       ExecuteStepPartialLoop r t size loop_start loop_end n in
     let total :=
       (length t + (Z.to_nat n - 1) * Z.to_nat (loop_end - loop_start))%nat in
     let visited :=
       range 0 loop_start
         ++ concat (repeat (range loop_start loop_end) (Z.to_nat n))
         ++ range loop_end size in
     (forall k, (k < total)%nat ->
        exists l gk, visits exec r k g = Some (l, gk) /\ phase gk = phase g) /\
     (exists g',
        visits exec r total g = Some (visited, g') /\
        phase g' = phase g + 1 /\ step_num g' = 0 /\ loop_num g' = 0) /\
     (forall i, 0 <= i < size ->
        count_occ Z.eq_dec visited i =
          if (loop_start <=? i) && (i <? loop_end)
          then Z.to_nat n else 1%nat)) /\
  (forall r (g : PlayerState),
     step_num g = 0 -> loop_num g = 0 ->
     exists l g',
       visits (fun r => ExecuteStepPartialLoop r GetEgg 22 13 15 5) r 30 g =
         Some (l, g') /\
       phase g' = phase g + 1 /\
       count_occ Z.eq_dec l 13 = 5%nat /\
       count_occ Z.eq_dec l 14 = 5%nat).
Proof.
  assert (G : forall r (t : list Step_t) (size loop_start loop_end n : Z)
          (g : PlayerState),
     size = Z.of_nat (length t) ->
     0 <= loop_start < loop_end /\ loop_end <= size ->
     1 <= n ->
     step_num g = 0 ->
     loop_num g = 0 ->
     (forall k, (k < length t + (Z.to_nat n - 1)
                       * Z.to_nat (loop_end - loop_start))%nat ->
        exists l gk,
          visits (fun r => ExecuteStepPartialLoop r t size loop_start
                             loop_end n) r k g = Some (l, gk) /\
          phase gk = phase g) /\
     (exists g',
        visits (fun r => ExecuteStepPartialLoop r t size loop_start
                           loop_end n) r
          (length t + (Z.to_nat n - 1) * Z.to_nat (loop_end - loop_start)) g =
          Some (range 0 loop_start
                  ++ concat (repeat (range loop_start loop_end) (Z.to_nat n))
                  ++ range loop_end size, g') /\
        phase g' = phase g + 1 /\ step_num g' = 0 /\ loop_num g' = 0)).
  { intros r t size ls le n g SZ B N1 S0 L0.
    destruct (partial_before_last r t size ls le n SZ B g N1 S0 L0)
      as (g1 & V & S1 & P1 & L1).
    set (K := Z.to_nat (le - ls)) in *.
    assert (T : (length t + (Z.to_nat n - 1) * K =
                 Z.to_nat ls + ((Z.to_nat n - 1) * K
                                + Z.to_nat (size - 1 - ls)) + 1)%nat) by lia.
    split.
    - intros k Bk.
      eapply visits_phase_const; [|exact V|exact P1|lia].
      intros g0 r' g'. apply ExecuteStepPartialLoop_phase_mono.
    - destruct (index_defined t (step_num g1)) as (st & E); [lia|].
      pose proof (ExecuteStepPartialLoop_result r t size ls le n g1 st E) as X.
      destruct (Z.ltb_spec (loop_num g1) (n - 1)); [lia|].
      rewrite andb_false_r in X.
      destruct (Z.geb_spec (step_num g1 + 1) size); [|lia].
      assert (LEQ : range 0 ls ++ concat (repeat (range ls le) (Z.to_nat n))
                      ++ range le size =
                    (range 0 ls
                       ++ concat (repeat (range ls le) (Z.to_nat n - 1))
                       ++ range ls (size - 1)) ++ [step_num g1]).
      { replace (Z.to_nat n) with (S (Z.to_nat n - 1)) at 1 by lia.
        rewrite <- concat_repeat_snoc, <- !app_assoc. do 2 f_equal.
        rewrite S1, <- range_last by lia. symmetry. apply range_split. lia. }
      rewrite T, LEQ. eexists. split; [|split; [|split]].
      + eapply visits_app; [exact V|]. cbn [visits]. rewrite X. reflexivity.
      + cbn. lia.
      + reflexivity.
      + reflexivity. }
  split.
  - intros r t size ls le n g SZ B N1 S0 L0. cbv zeta.
    destruct (G r t size ls le n g SZ B N1 S0 L0) as (G1 & G2).
    split; [exact G1|]. split; [exact G2|].
    intros i Bi. apply partial_loop_counts; lia.
  - intros r g S0 L0.
    destruct (G r GetEgg 22 13 15 5 g) as (_ & g' & V & P & _);
      [reflexivity | lia | lia | assumption | assumption |].
    do 2 eexists. split; [exact V|]. split; [exact P|].
    split; reflexivity.
Qed.

(** ** The engine as a whole: the invariant of the globals *)

Lemma main_procedure_phase r g :
  main_procedure r g =
    if phase g =? 0 then ExecuteStep r SyncController 8 g
    else if phase g =? 1 then
      ExecuteStepPartialLoop r GetEgg 22 13 15 (egg_slot g + 1) g
    else if phase g =? 2 then ExecuteStep r Recall 11 g
    else if phase g =? 3 then ExecuteStepLoop r BikeBig 2 55 g
    else if phase g =? 4 then ExecuteStep r Recall 11 g
    else Some (r, g).
Proof. reflexivity. Qed.

Lemma table_durations (t : list Step_t) (st : Step_t) :
  t = SyncController \/ t = GetEgg \/ t = Recall \/ t = BikeBig ->
  In st t -> 0 <= Duration st <= 600.
Proof.
  intros [-> | [-> | [-> | ->]]] I; cbn in I;
    repeat (destruct I as [<- | I]; [cbn; unfold BUTTON_DURATION; lia|]);
    contradiction.
Qed.

Lemma active_table_size g :
  0 <= phase g <= 4 ->
  exists t, active_table g = Some t /\
            Z.of_nat (length t) = table_size (phase g) /\
            (t = SyncController \/ t = GetEgg \/ t = Recall \/ t = BikeBig).
Proof.
  intros P. unfold active_table, table_size.
  destruct (Z.eqb_spec (phase g) 0); [eexists; split; [reflexivity|]; auto|].
  destruct (Z.eqb_spec (phase g) 1); [eexists; split; [reflexivity|]; auto|].
  destruct (Z.eqb_spec (phase g) 2); [eexists; split; [reflexivity|]; auto|].
  destruct (Z.eqb_spec (phase g) 3);
    [eexists; split; [reflexivity|]; auto 6|].
  destruct (Z.eqb_spec (phase g) 4); [eexists; split; [reflexivity|]; auto|].
  lia.
Qed.

(** Under the invariant the executor's table read is inside the table. *)
Lemma invariant_active g :
  engine_invariant g ->
  exists t st, active_table g = Some t /\
               0 <= step_num g < Z.of_nat (length t) /\
               index t (step_num g) = Some st /\
               active_step g = Some st /\
               0 <= Duration st <= 600.
Proof.
  intros (P & S & _).
  destruct (active_table_size g P) as (t & A & L & T).
  destruct (index_defined t (step_num g)) as (st & E); [lia|].
  exists t, st. unfold active_step. rewrite A.
  repeat split; auto; try lia;
    apply (table_durations t st T (index_In _ _ _ E)).
Qed.

Ltac sched :=
  first [ apply sched_stay
        | apply sched_sync_done
        | exact (sched_next 1 _ ltac:(lia))
        | exact (sched_next 2 _ ltac:(lia))
        | exact (sched_next 3 _ ltac:(lia))
        | apply sched_repeat ].

Ltac fetched e :=
  unfold repeat_main_procedure;
  assert (0 <= (e + 1) mod 5 < 5) by (apply Z.mod_pos_bound; lia);
  cbn -[Z.modulo Z.rem];
  rewrite ?(Z.rem_mod_nonneg (e + 1) 5) by lia;
  do 2 eexists; split; [reflexivity|]; split;
  [ unfold engine_invariant, table_size; cbn -[Z.modulo]; lia
  | cbn -[Z.modulo]; sched ].

Ltac executed st X :=
  match goal with
  | |- context [ExecuteStep ?r ?t ?sz ?g] =>
      rewrite (ExecuteStep_result r t sz g st X)
  | |- context [ExecuteStepLoop ?r ?t ?sz ?n ?g] =>
      rewrite (ExecuteStepLoop_result r t sz n g st X)
  | |- context [ExecuteStepPartialLoop ?r ?t ?sz ?a ?b ?n ?g] =>
      rewrite (ExecuteStepPartialLoop_result r t sz a b n g st X)
  end;
  cbn [phase step_num loop_num egg_slot echoes last_report].

(** A call that fetches keeps the invariant and moves the scheduler by
    one of its moves. *)
Lemma fetch_preserves g :
  engine_invariant g -> echoes g <= 0 ->
  exists r g', GetNextReport g = Some (r, g') /\ engine_invariant g' /\
               sched_step (phase g, egg_slot g) (phase g', egg_slot g').
Proof.
  intros I E.
  destruct (invariant_active g I) as (t & st & A & B & X & _ & D).
  destruct I as (P & S & L1 & L3 & L0 & G & _).
  unfold GetNextReport. destruct (Z.gtb_spec (echoes g) 0); [lia|].
  rewrite main_procedure_phase.
  unfold active_table, table_size in *.
  destruct g as [p s l e ec lr].
  cbn [phase step_num loop_num egg_slot echoes last_report] in *.
  destruct (Z.eqb_spec p 0) as [->|P0].
  { injection A as <-. executed st X.
    destruct (Z.geb_spec (s + 1) 8); fetched e. }
  destruct (Z.eqb_spec p 1) as [->|P1].
  { injection A as <-. executed st X.
    destruct (Z.eqb_spec (s + 1) 15), (Z.ltb_spec l (e + 1 - 1)); cbn [andb];
      try (destruct (Z.geb_spec (s + 1) 22)); fetched e. }
  destruct (Z.eqb_spec p 2) as [->|P2].
  { injection A as <-. executed st X.
    destruct (Z.geb_spec (s + 1) 11); fetched e. }
  destruct (Z.eqb_spec p 3) as [->|P3].
  { injection A as <-. executed st X.
    destruct (Z.geb_spec (s + 1) 2); [destruct (Z.geb_spec (l + 1) 55)|];
      fetched e. }
  destruct (Z.eqb_spec p 4) as [->|P4].
  { injection A as <-. executed st X.
    destruct (Z.geb_spec (s + 1) 11); fetched e. }
  lia.
Qed.

Lemma tick_preserves g :
  engine_invariant g ->
  exists r g', GetNextReport g = Some (r, g') /\ engine_invariant g' /\
               sched_step (phase g, egg_slot g) (phase g', egg_slot g').
Proof.
  intros I. destruct (Z_gt_le_dec (echoes g) 0) as [E|E].
  - rewrite replay_tick by assumption. do 2 eexists.
    split; [reflexivity|]. split; [|apply sched_stay].
    unfold engine_invariant in *. cbn. lia.
  - apply fetch_preserves; assumption.
Qed.

Lemma initial_invariant : engine_invariant initial_state.
Proof. unfold engine_invariant. cbn. lia. Qed.

Lemma state_at_succ n g :
  state_at n = Some g ->
  state_at (N.succ n) = option_map snd (GetNextReport g).
Proof. unfold state_at. intros E. rewrite run_succ, E. reflexivity. Qed.

(** The engine never reads outside a table: every call from the initial
    state on is defined, and the invariant holds between calls. *)
Lemma reachable_invariant n :
  exists g, state_at n = Some g /\ engine_invariant g.
Proof.
  induction n using N.peano_ind.
  - exists initial_state. split; [reflexivity | apply initial_invariant].
  - destruct IHn as (g & E & I).
    destruct (tick_preserves g I) as (r & g' & T & I' & _).
    exists g'. rewrite (state_at_succ n g E), T. auto.
Qed.

(** C8.  After any number of calls from the initial state the globals are
    defined, the step index lies inside the table of the active phase (so
    the step the next executor reads exists), and in the two looping
    phases the loop count is below the repetition count passed to the
    executor ([egg_slot + 1] in phase 1, 55 in phase 3). *)
Theorem player_state_invariant (n : N) :
  exists g t st,
    state_at n = Some g /\
    active_table g = Some t /\
    0 <= step_num g < Z.of_nat (length t) /\
    index t (step_num g) = Some st /\
    (phase g = 1 -> 0 <= loop_num g < egg_slot g + 1) /\
    (phase g = 3 -> 0 <= loop_num g < 55).
Proof.
  destruct (reachable_invariant n) as (g & E & I).
  destruct (invariant_active g I) as (t & st & A & B & X & _).
  exists g, t, st. unfold engine_invariant in I. intuition.
Qed.

(** ** Phase scheduler *)

Lemma reachable_step n :
  exists g g',
    state_at n = Some g /\ state_at (N.succ n) = Some g' /\
    engine_invariant g /\
    sched_step (phase g, egg_slot g) (phase g', egg_slot g').
Proof.
  destruct (reachable_invariant n) as (g & E & I).
  destruct (tick_preserves g I) as (r & g' & T & _ & M).
  exists g, g'. rewrite (state_at_succ n g E), T. auto.
Qed.

Lemma state_at_add n m :
  state_at (n + m) = match state_at n with
                     | Some g => run m g
                     | None => None
                     end.
Proof. apply run_add. Qed.

(** Once the sync phase is left, it is left for good. *)
Lemma sync_not_reentered m :
  forall n g g',
    state_at n = Some g -> 1 <= phase g ->
    state_at (n + m) = Some g' -> 1 <= phase g'.
Proof.
  induction m using N.peano_ind; intros n g g' E P E'.
  - rewrite N.add_0_r in E'. congruence.
  - rewrite N.add_succ_r in E'.
    destruct (reachable_step (n + m)) as (g1 & g2 & E1 & E2 & _ & M).
    specialize (IHm n g g1 E P E1).
    assert (g2 = g') by congruence. subst g2.
    inversion M; subst; lia.
Qed.

Lemma sync_phase_ticks n g :
  state_at n = Some g -> (phase g = 0 <-> (n < 338)%N).
Proof.
  intros E. destruct (reachable_invariant n) as (g0 & E0 & I).
  assert (g0 = g) by congruence. subst g0.
  destruct I as (P & _). split.
  - intros P0. destruct (N.lt_ge_cases n 338) as [|GE]; [assumption|].
    assert (A : state_at 338 = Some (mkState 1 0 0 0 10
                  (overlay empty_report
                     (mkStep SWITCH_A STICK_CENTER STICK_CENTER 10))))
      by (vm_compute; reflexivity).
    pose proof (fun Q => sync_not_reentered (n - 338) 338 _ g A Q) as X.
    replace (338 + (n - 338))%N with n in X by lia.
    specialize (X ltac:(cbn; lia) E). lia.
  - intros LT.
    destruct (Z.eq_dec (phase g) 0) as [|NE]; [assumption|].
    assert (A : exists lr, state_at 337 = Some (mkState 0 7 0 0 0 lr))
      by (eexists; vm_compute; reflexivity).
    destruct A as (lr & A).
    pose proof (sync_not_reentered (337 - n) n g (mkState 0 7 0 0 0 lr) E
                  ltac:(lia)) as X.
    replace (n + (337 - n))%N with 337%N in X by lia.
    specialize (X A). cbn in X. lia.
Qed.

(** From the second call of phase 1 on, the globals repeat every 48565
    calls (five rounds of phases 1 to 4). *)
Lemma engine_periodic k :
  state_at (349 + k * 48565) = state_at 349.
Proof.
  induction k using N.peano_ind; [reflexivity|].
  replace (349 + N.succ k * 48565)%N with (349 + k * 48565 + 48565)%N by lia.
  rewrite state_at_add, IHk. vm_compute. reflexivity.
Qed.

(** The scheduler never comes to rest: whatever the phase, a later call
    finds the engine in another one. *)
Lemma phase_changes_again n g :
  state_at n = Some g ->
  exists m gm, (n < m)%N /\ state_at m = Some gm /\ phase gm <> phase g.
Proof.
  intros E.
  assert (A1 : exists g1, state_at (349 + (n + 1) * 48565) = Some g1 /\
                          phase g1 = 1).
  { rewrite engine_periodic. eexists. split; [vm_compute|]; reflexivity. }
  assert (A2 : exists g2, state_at (349 + (n + 1) * 48565 + 2761) = Some g2 /\
                          phase g2 = 2).
  { rewrite state_at_add, engine_periodic. eexists.
    split; [vm_compute|]; reflexivity. }
  destruct A1 as (g1 & E1 & P1), A2 as (g2 & E2 & P2).
  destruct (Z.eq_dec (phase g) 1) as [Q|Q].
  - exists (349 + (n + 1) * 48565 + 2761)%N, g2. split; [lia|]. split; [assumption|lia].
  - exists (349 + (n + 1) * 48565)%N, g1. split; [lia|]. split; [assumption|lia].
Qed.

(** The slot counter is the number of completed rounds, modulo 5. *)
Lemma completions_invariant n :
  exists g c,
    completions_at n = Some (g, c) /\ state_at n = Some g /\
    egg_slot g = Z.of_N c mod 5.
Proof.
  induction n using N.peano_ind.
  - exists initial_state, 0%N. repeat split.
  - destruct IHn as (g & c & C & E & S).
    destruct (reachable_step n) as (g0 & g' & E0 & E' & I & M).
    assert (g0 = g) by congruence. subst g0.
    rewrite (state_at_succ n g E) in E'.
    unfold completions_at in *. rewrite N.iter_succ, C.
    rewrite (state_at_succ n g E). cbn [count_tick].
    destruct (GetNextReport g) as [[r g1]|]; [|discriminate].
    injection E' as ->. eexists _, _. split; [reflexivity|].
    split; [reflexivity|].
    destruct I as (P & _).
    destruct (Z.eqb_spec (phase g) 4), (Z.eqb_spec (phase g') 1);
      cbn [andb]; inversion M; subst; try lia; try congruence.
    rewrite N2Z.inj_succ. unfold Z.succ.
    rewrite <- (Z.add_mod_idemp_l (Z.of_N c)), <- S by lia. reflexivity.
Qed.

(** C3.  The scheduler starts in phase 0 with slot counter 0.  Every call
    from there on is defined and moves (phase, egg_slot) by a scheduler
    move: stay, 0 -> 1, p -> p+1 for p = 1, 2, 3, or 4 -> 1 with the slot
    counter incremented modulo 5.  The engine is in phase 0 exactly during
    the first 338 calls, whatever the phase a later call finds another
    one (there is no terminal state), and the slot counter is the number
    of completed rounds modulo 5: after the fifth round it reads 0. *)
Theorem phase_scheduler_cycle :
  phase initial_state = 0 /\ egg_slot initial_state = 0 /\
  (forall n, exists g g' c,
     state_at n = Some g /\ state_at (N.succ n) = Some g' /\
     completions_at n = Some (g, c) /\
     sched_step (phase g, egg_slot g) (phase g', egg_slot g') /\
     (phase g = 0 <-> (n < 338)%N) /\
     egg_slot g = Z.of_N c mod 5 /\
     exists m gm, (n < m)%N /\ state_at m = Some gm /\ phase gm <> phase g) /\
  (exists n g,
     completions_at n = Some (g, 5%N) /\ phase g = 1 /\ egg_slot g = 0).
Proof.
  split; [reflexivity|]. split; [reflexivity|]. split.
  - intros n.
    destruct (reachable_step n) as (g & g' & E & E' & _ & M).
    destruct (completions_invariant n) as (g0 & c & C & E0 & S).
    assert (g0 = g) by congruence. subst g0.
    exists g, g', c. repeat split; auto;
      try apply (sync_phase_ticks n g E).
    apply phase_changes_again. assumption.
  - exists 48613%N. eexists. split; [vm_compute; reflexivity|].
    split; reflexivity.
Qed.

(** ** Reports *)

Lemma replays_true g : replays g = true <-> echoes g > 0.
Proof.
  unfold replays.
  destruct (Z.gtb_spec (echoes g) 0); split; (lia || congruence || auto).
Qed.

Lemma replays_false g : replays g = false <-> echoes g <= 0.
Proof.
  unfold replays.
  destruct (Z.gtb_spec (echoes g) 0); split; (lia || congruence || auto).
Qed.

(** A call that fetches returns what the main procedure built from the
    empty report, and caches it. *)
Lemma fetch_main g r g' :
  echoes g <= 0 -> GetNextReport g = Some (r, g') ->
  last_report g' = r /\
  exists gx, main_procedure empty_report g = Some (r, gx).
Proof.
  intros E. unfold GetNextReport.
  destruct (Z.gtb_spec (echoes g) 0); [lia|].
  destruct (main_procedure empty_report g) as [[r0 gx]|]; [|discriminate].
  intros [= <- <-]. cbn. eauto.
Qed.

Lemma report_at_state n g :
  state_at n = Some g -> report_at n = option_map fst (GetNextReport g).
Proof. unfold report_at. intros ->. reflexivity. Qed.

(** A call that fetches leaves the globals of the main procedure, passed
    through the repeat test, with the report cached. *)
Lemma fetch_main_state g r g' :
  echoes g <= 0 -> GetNextReport g = Some (r, g') ->
  exists gx,
    main_procedure empty_report g = Some (r, gx) /\
    g' = mkState (phase (repeat_main_procedure gx))
                 (step_num (repeat_main_procedure gx))
                 (loop_num (repeat_main_procedure gx))
                 (egg_slot (repeat_main_procedure gx))
                 (echoes (repeat_main_procedure gx)) r.
Proof.
  intros E. unfold GetNextReport.
  destruct (Z.gtb_spec (echoes g) 0); [lia|].
  destruct (main_procedure empty_report g) as [[r0 gx]|]; [|discriminate].
  intros [= <- <-]. eauto.
Qed.

(** Past the first call, the cached report is the one an earlier call
    built by running an executor on the empty report; that call left the
    executor's globals behind, with the report cached. *)
Lemma cache_origin n :
  exists g,
    state_at n = Some g /\
    (n = 0%N \/
     exists m gm gx st,
       (m < n)%N /\ state_at m = Some gm /\ replays gm = false /\
       0 <= phase gm <= 4 /\
       active_step gm = Some st /\
       last_report g = overlay empty_report st /\
       main_procedure empty_report gm = Some (last_report g, gx) /\
       state_at (N.succ m) =
         Some (mkState (phase (repeat_main_procedure gx))
                       (step_num (repeat_main_procedure gx))
                       (loop_num (repeat_main_procedure gx))
                       (egg_slot (repeat_main_procedure gx))
                       (echoes (repeat_main_procedure gx))
                       (last_report g)) /\
       report_at m = Some (last_report g)).
Proof.
  induction n using N.peano_ind.
  - exists initial_state. split; [reflexivity | left; reflexivity].
  - destruct IHn as (g & E & O).
    destruct (reachable_invariant n) as (g0 & E0 & I).
    assert (g0 = g) by congruence. subst g0.
    destruct (tick_preserves g I) as (r & g' & T & _ & _).
    exists g'. rewrite (state_at_succ n g E), T. split; [reflexivity|].
    right. destruct (Z_gt_le_dec (echoes g) 0) as [R|F].
    + rewrite replay_tick in T by assumption. injection T as <- <-.
      cbn [last_report].
      destruct O as [->|(m & gm & gx & st & B & Em & Fm & Pm & Am & Om & Mm
                          & Sm & Rm)].
      * injection E as <-. cbn in R. lia.
      * exists m, gm, gx, st. repeat split; auto; lia.
    + destruct (invariant_active g I) as (t & st & _ & _ & _ & A & _).
      destruct (fetch_tick g st F A) as (g1 & T1 & _ & _).
      assert (r = overlay empty_report st) by congruence. subst r.
      destruct (fetch_main_state g _ g' F T) as (gx & Mx & ->).
      cbn [last_report].
      exists n, g, gx, st. destruct I as (P & _).
      repeat split; auto; try lia.
      * apply replays_false. assumption.
      * rewrite (state_at_succ n g E), T. reflexivity.
      * rewrite (report_at_state n g E), T. reflexivity.
Qed.

(** C10.  The echo counter starts at zero, so the first call takes the
    fetch branch: it runs [ExecuteStep] on step 0 of [SyncController],
    returns the report the executor wrote, leaves the executor's globals
    (step index 1, 75 echoes) with that report cached, and the second call
    replays it.  Every call that replays returns a report that a strictly
    earlier call built by running an executor of the main procedure on the
    empty report (the empty report overlaid with the step that call
    fetched) and cached together with the executor's globals. *)
Theorem replay_is_synthesized :
  echoes initial_state = 0 /\
  (exists r g',
     ExecuteStep empty_report SyncController 8 initial_state = Some (r, g') /\
     report_at 0 = Some r /\
     GetNextReport initial_state =
       Some (r, mkState (phase g') (step_num g') (loop_num g') (egg_slot g')
                        (echoes g') r) /\
     phase g' = 0 /\ step_num g' = 1 /\ echoes g' = 75 /\
     exists g1,
       state_at 1 = Some g1 /\ replays g1 = true /\
       step_num g1 = 1 /\ echoes g1 = 75 /\ last_report g1 = r /\
       report_at 1 = Some r) /\
  (forall n g,
     state_at n = Some g -> replays g = true ->
     exists m gm gx r st,
       (m < n)%N /\ state_at m = Some gm /\ replays gm = false /\
       0 <= phase gm <= 4 /\
       active_step gm = Some st /\
       r = overlay empty_report st /\
       main_procedure empty_report gm = Some (r, gx) /\
       state_at (N.succ m) =
         Some (mkState (phase (repeat_main_procedure gx))
                       (step_num (repeat_main_procedure gx))
                       (loop_num (repeat_main_procedure gx))
                       (egg_slot (repeat_main_procedure gx))
                       (echoes (repeat_main_procedure gx)) r) /\
       report_at m = Some r /\ report_at n = Some r /\
       last_report g = r).
Proof.
  split; [reflexivity|]. split.
  - do 2 eexists. split; [reflexivity|]. split; [reflexivity|].
    split; [reflexivity|]. split; [reflexivity|]. split; [reflexivity|].
    split; [reflexivity|]. eexists. split; [reflexivity|].
    repeat split.
  - intros n g E R. apply replays_true in R.
    destruct (cache_origin n) as (g0 & E0 & O).
    assert (g0 = g) by congruence. subst g0.
    destruct O as [->|(m & gm & gx & st & B & Em & Fm & Pm & Am & Om & Mm
                        & Sm & Rm)].
    + injection E as <-. cbn in R. lia.
    + exists m, gm, gx, (last_report g), st. repeat split; auto; try lia.
      rewrite (report_at_state n g E), replay_tick by assumption. reflexivity.
Qed.

(** While the engine replays, the cached report is the empty report
    overlaid with the step that was fetched last. *)
Lemma held_invariant n :
  exists g held,
    held_at n = Some (g, held) /\ state_at n = Some g /\
    (replays g = true ->
     exists st, held = Some st /\ last_report g = overlay empty_report st).
Proof.
  induction n using N.peano_ind.
  - exists initial_state, None. repeat split. discriminate.
  - destruct IHn as (g & held & Hn & E & C).
    destruct (reachable_invariant n) as (g0 & E0 & I).
    assert (g0 = g) by congruence. subst g0.
    unfold held_at in *. rewrite N.iter_succ, Hn. cbn [held_tick].
    rewrite (state_at_succ n g E).
    destruct (Z_gt_le_dec (echoes g) 0) as [R|F].
    + rewrite replay_tick by assumption.
      pose proof (proj2 (replays_true g) R) as RT. rewrite RT.
      eexists _, _. split; [reflexivity|]. split; [reflexivity|].
      intros _. cbn [last_report]. apply C. exact RT.
    + destruct (invariant_active g I) as (t & st & _ & _ & _ & A & _).
      destruct (fetch_tick g st F A) as (g' & -> & _ & L).
      rewrite (proj2 (replays_false g) F).
      eexists _, _. split; [reflexivity|]. split; [reflexivity|].
      intros _. exists st. auto.
Qed.

(** C9.  Every report the engine returns is the empty report overlaid
    with the step in force: RX and RY are [STICK_CENTER] and HAT is
    [HAT_CENTER], and when that step has an empty button mask and both
    sticks centered the report is fully neutral.  A call that neither
    replays nor finds a phase of the main procedure returns the neutral
    report as well.  No executor changes RX, RY or HAT of the report it is
    given. *)
Theorem report_neutral_fields :
  (forall n, exists g r st,
     state_at n = Some g /\ report_at n = Some r /\
     RX r = STICK_CENTER /\ RY r = STICK_CENTER /\ HAT r = HAT_CENTER /\
     step_on_tick n = Some st /\
     (sButton st = 0 -> sLX st = STICK_CENTER -> sLY st = STICK_CENTER ->
      r = mkReport 0 HAT_CENTER STICK_CENTER STICK_CENTER
                   STICK_CENTER STICK_CENTER)) /\
  (forall g, echoes g <= 0 -> ~ 0 <= phase g <= 4 ->
     exists g', GetNextReport g =
       Some (mkReport 0 HAT_CENTER STICK_CENTER STICK_CENTER
                      STICK_CENTER STICK_CENTER, g')) /\
  (forall r t size ls le n g r' g',
     ExecuteStep r t size g = Some (r', g') \/
     ExecuteStepLoop r t size n g = Some (r', g') \/
     ExecuteStepPartialLoop r t size ls le n g = Some (r', g') ->
     RX r' = RX r /\ RY r' = RY r /\ HAT r' = HAT r).
Proof.
  split; [|split].
  - intros n.
    destruct (held_invariant n) as (g & held & Hn & E & C).
    destruct (reachable_invariant n) as (g0 & E0 & I).
    assert (g0 = g) by congruence. subst g0.
    assert (X : exists st, step_on_tick n = Some st /\
                           report_at n = Some (overlay empty_report st)).
    { unfold step_on_tick. rewrite Hn, (report_at_state n g E).
      destruct (replays g) eqn:R.
      - destruct (C eq_refl) as (st & -> & L). exists st.
        rewrite replay_tick by (apply replays_true; assumption).
        cbn. rewrite L. auto.
      - destruct (invariant_active g I) as (t & st & _ & _ & _ & A & _).
        apply replays_false in R.
        destruct (fetch_tick g st R A) as (g' & -> & _). eauto. }
    destruct X as (st & Sn & Rn).
    exists g, (overlay empty_report st), st.
    repeat split; auto.
    intros B X Y. unfold overlay. cbn. rewrite B, X, Y. reflexivity.
  - intros g E P. unfold GetNextReport.
    destruct (Z.gtb_spec (echoes g) 0); [lia|].
    rewrite main_procedure_phase.
    destruct (Z.eqb_spec (phase g) 0); [lia|].
    destruct (Z.eqb_spec (phase g) 1); [lia|].
    destruct (Z.eqb_spec (phase g) 2); [lia|].
    destruct (Z.eqb_spec (phase g) 3); [lia|].
    destruct (Z.eqb_spec (phase g) 4); [lia|].
    eexists. reflexivity.
  - intros r t size ls le n g r' g' X.
    destruct (index t (step_num g)) as [st|] eqn:E.
    + rewrite (ExecuteStep_result _ _ _ _ _ E),
        (ExecuteStepLoop_result _ _ _ _ _ _ E),
        (ExecuteStepPartialLoop_result _ _ _ _ _ _ _ _ E) in X.
      destruct X as [X | [X | X]]; injection X as <- _; cbn; auto.
    + unfold ExecuteStep, ExecuteStepLoop, ExecuteStepPartialLoop in X.
      rewrite E in X. destruct X as [X | [X | X]]; discriminate X.
Qed.

(** ** Further facts about the engine *)

(** X1.  After any call, whatever the globals were, [last_report] holds the
    report that call returned. *)
Theorem last_report_is_returned g r g' :
  GetNextReport g = Some (r, g') -> last_report g' = r.
Proof.
  intros T. destruct (Z_gt_le_dec (echoes g) 0) as [R|F].
  - rewrite replay_tick in T by assumption. injection T as <- <-. reflexivity.
  - apply (fetch_main g r g' F T).
Qed.

(** X2.  Between calls every counter of the engine lies in a small range: no
    [int] of the engine overflows, the echo counter is never negative and
    the transient phase value 5 is never left behind. *)
Theorem counters_bounded (n : N) :
  exists g,
    state_at n = Some g /\
    0 <= phase g <= 4 /\
    0 <= step_num g < 22 /\
    0 <= loop_num g < 55 /\
    0 <= egg_slot g < 5 /\
    0 <= echoes g <= 600.
Proof.
  destruct (reachable_invariant n) as (g & E & P & S & L1 & L3 & L0 & G & C).
  exists g. split; [exact E|]. split; [exact P|].
  unfold table_size in S.
  destruct (Z.eqb_spec (phase g) 0), (Z.eqb_spec (phase g) 1),
    (Z.eqb_spec (phase g) 2), (Z.eqb_spec (phase g) 3); lia.
Qed.

(** X3.  From call 349 on the engine is periodic: the globals, and with them
    the reports, repeat every 48565 calls. *)
Theorem engine_eventually_periodic (n : N) :
  (349 <= n)%N ->
  state_at (n + 48565) = state_at n /\
  report_at (n + 48565) = report_at n.
Proof.
  intros B.
  assert (E : state_at (n + 48565) = state_at n).
  { replace (n + 48565)%N with (349 + 1 * 48565 + (n - 349))%N by lia.
    rewrite state_at_add, engine_periodic, <- state_at_add.
    f_equal. lia. }
  split; [exact E|]. unfold report_at. rewrite E. reflexivity.
Qed.

Lemma report_at_overlay n :
  exists st, step_on_tick n = Some st /\
             report_at n = Some (overlay empty_report st).
Proof.
  destruct (held_invariant n) as (g & held & Hn & E & C).
  destruct (reachable_invariant n) as (g0 & E0 & I).
  assert (g0 = g) by congruence. subst g0.
  unfold step_on_tick. rewrite Hn, (report_at_state n g E).
  destruct (replays g) eqn:R.
  - destruct (C eq_refl) as (st & -> & L). exists st.
    rewrite replay_tick by (apply replays_true; assumption).
    cbn. rewrite L. auto.
  - destruct (invariant_active g I) as (t & st & _ & _ & _ & A & _).
    apply replays_false in R.
    destruct (fetch_tick g st R A) as (g' & -> & _). eauto.
Qed.

(** X4.  Every report carries exactly the button mask and the stick values of
    the step in force: the [|=] of the executors never carries a button
    over from an earlier step. *)
Theorem report_is_step_in_force (n : N) :
  exists st,
    step_on_tick n = Some st /\
    report_at n =
      Some (mkReport (sButton st) HAT_CENTER (sLX st) (sLY st)
                     STICK_CENTER STICK_CENTER).
Proof.
  destruct (report_at_overlay n) as (st & S & R).
  exists st. split; [exact S|]. rewrite R. reflexivity.
Qed.

(** X5.  A phase outside 0..5 is absorbing: with no echo pending, every call
    returns the neutral report and the counters never move again. *)
Theorem stray_phase_is_absorbing g (n : N) :
  echoes g <= 0 ->
  ~ 0 <= phase g <= 5 ->
  GetNextReport g =
    Some (empty_report,
          mkState (phase g) (step_num g) (loop_num g) (egg_slot g)
                  (echoes g) empty_report) /\
  run (N.succ n) g =
    Some (mkState (phase g) (step_num g) (loop_num g) (egg_slot g)
                  (echoes g) empty_report).
Proof.
  intros E P.
  assert (T : forall lr,
            GetNextReport (mkState (phase g) (step_num g) (loop_num g)
                                   (egg_slot g) (echoes g) lr) =
              Some (empty_report,
                    mkState (phase g) (step_num g) (loop_num g) (egg_slot g)
                            (echoes g) empty_report)).
  { intros lr. unfold GetNextReport. cbn [echoes].
    destruct (Z.gtb_spec (echoes g) 0); [lia|].
    rewrite main_procedure_phase. cbn [phase].
    destruct (Z.eqb_spec (phase g) 0); [lia|].
    destruct (Z.eqb_spec (phase g) 1); [lia|].
    destruct (Z.eqb_spec (phase g) 2); [lia|].
    destruct (Z.eqb_spec (phase g) 3); [lia|].
    destruct (Z.eqb_spec (phase g) 4); [lia|].
    unfold repeat_main_procedure. cbn [phase].
    destruct (Z.eqb_spec (phase g) 5); [lia|]. reflexivity. }
  split.
  - destruct g; apply T.
  - induction n using N.peano_ind.
    + rewrite run_succ, run_0. cbn [tick]. destruct g. cbn in *.
      rewrite (T last_report0). reflexivity.
    + rewrite run_succ, IHn. cbn [tick]. rewrite T. reflexivity.
Qed.

(** ** Degenerate loop parameters *)

(** X6.  A repetition count of one or less (zero and negative counts included)
    does not suppress the pass: [ExecuteStepLoop] still plays the table
    once, end to end, before the phase advances. *)
Theorem full_loop_plays_at_least_once
    r (t : list Step_t) (size n : Z) (g : PlayerState) :
  size = Z.of_nat (length t) ->
  0 < size ->
  n <= 1 ->
  step_num g = 0 ->
  0 <= loop_num g ->
  (forall k, (k < length t)%nat ->
     exists l gk,
       visits (fun r => ExecuteStepLoop r t size n) r k g = Some (l, gk) /\
       phase gk = phase g) /\
  (exists g',
     visits (fun r => ExecuteStepLoop r t size n) r (length t) g =
       Some (range 0 size, g') /\
     phase g' = phase g + 1 /\ loop_num g' = 0 /\ step_num g' = 0).
Proof.
  intros SZ NE N1 S0 L0.
  destruct (loop_pass_body r t size n SZ NE g S0) as (g1 & V & S1 & P1 & L1).
  split.
  - intros k B.
    eapply visits_phase_const; [|exact V|exact P1|lia].
    intros g0 r' g'. apply ExecuteStepLoop_phase_mono.
  - destruct (index_defined t (step_num g1)) as (st & E); [lia|].
    pose proof (ExecuteStepLoop_result r t size n g1 st E) as X.
    destruct (Z.geb_spec (step_num g1 + 1) size); [|lia].
    destruct (Z.geb_spec (loop_num g1 + 1) n); [|lia].
    eexists. split; [|split; [|split]].
    + replace (length t) with (length t - 1 + 1)%nat at 1 by lia.
      rewrite (range_last 0 size) by lia. rewrite <- S1 at 2.
      eapply visits_app; [exact V|]. cbn [visits]. rewrite X. reflexivity.
    + cbn. lia.
    + reflexivity.
    + reflexivity.
Qed.

Lemma In_zrange i k :
  forall a, In i (zrange a k) <-> a <= i < a + Z.of_nat k.
Proof.
  induction k as [|k IH]; intros a; cbn [zrange In].
  - lia.
  - rewrite IH. lia.
Qed.

Lemma In_range a b i : In i (range a b) <-> a <= i < b.
Proof. unfold range. rewrite In_zrange. lia. Qed.

Section PartialLoopAnyBounds.
Variables (r : Report) (t : list Step_t) (size loop_start loop_end n : Z).
Hypothesis size_length : size = Z.of_nat (length t).

Let exec := fun r => ExecuteStepPartialLoop r t size loop_start loop_end n.

(** A stretch [[a, a + k)] on which the jump does not fire and the table
    does not end, whatever the loop bounds are. *)
Lemma partial_plain_segment k a g :
  0 <= a -> a + Z.of_nat k < size ->
  (a < loop_end <= a + Z.of_nat k -> n - 1 <= loop_num g) ->
  step_num g = a ->
  exists g', visits exec r k g = Some (zrange a k, g') /\
             step_num g' = a + Z.of_nat k /\
             phase g' = phase g /\ loop_num g' = loop_num g.
Proof.
  intros A B J S0.
  apply visits_segment; auto.
  intros g0 B0 P0 L0.
  destruct (index_defined t (step_num g0)) as (st & E); [lia|].
  unfold exec. rewrite (ExecuteStepPartialLoop_result _ _ _ _ _ _ _ _ E).
  destruct (Z.eqb_spec (step_num g0 + 1) loop_end),
    (Z.ltb_spec (loop_num g0) (n - 1)); cbn [andb]; try lia;
    (destruct (Z.geb_spec (step_num g0 + 1) size); [lia|]);
    do 2 eexists; (split; [reflexivity|]); cbn; auto.
Qed.

End PartialLoopAnyBounds.

(** X7.  When the jump can never fire (a repetition count of one or less, or a
    [loop_end] that no step index reaches), [ExecuteStepPartialLoop] is a
    plain linear pass: the table is played once, in order. *)
Theorem partial_loop_without_jump
    r (t : list Step_t) (size loop_start loop_end n : Z) (g : PlayerState) :
  size = Z.of_nat (length t) ->
  0 < size ->
  n <= 1 \/ loop_end <= 0 \/ size < loop_end ->
  step_num g = 0 ->
  0 <= loop_num g ->
  (forall k, (k < length t)%nat ->
     exists l gk,
       visits (fun r => ExecuteStepPartialLoop r t size loop_start
                          loop_end n) r k g = Some (l, gk) /\
       phase gk = phase g) /\
  (exists g',
     visits (fun r => ExecuteStepPartialLoop r t size loop_start loop_end n)
            r (length t) g = Some (range 0 size, g') /\
     phase g' = phase g + 1 /\ loop_num g' = 0 /\ step_num g' = 0).
Proof.
  intros SZ NE D S0 L0.
  destruct (partial_plain_segment r t size loop_start loop_end n SZ
              (length t - 1) 0 g) as (g1 & V & S1 & P1 & L1);
    try lia.
  split.
  - intros k B.
    eapply visits_phase_const; [|exact V|exact P1|lia].
    intros g0 r' g'. apply ExecuteStepPartialLoop_phase_mono.
  - destruct (index_defined t (step_num g1)) as (st & E); [lia|].
    pose proof (ExecuteStepPartialLoop_result r t size loop_start loop_end n
                  g1 st E) as X.
    assert (J : (step_num g1 + 1 =? loop_end) && (loop_num g1 <? n - 1)
                = false).
    { destruct (Z.eqb_spec (step_num g1 + 1) loop_end),
        (Z.ltb_spec (loop_num g1) (n - 1)); cbn [andb]; auto; lia. }
    rewrite J in X.
    destruct (Z.geb_spec (step_num g1 + 1) size); [|lia].
    eexists. split; [|split; [|split]].
    + replace (length t) with (length t - 1 + 1)%nat at 1 by lia.
      rewrite (range_last 0 size) by lia.
      replace (size - 1) with (step_num g1) at 2 by lia.
      unfold range. replace (Z.to_nat (size - 1 - 0))
        with (length t - 1)%nat by lia.
      eapply visits_app; [exact V|]. cbn [visits]. rewrite X. reflexivity.
    + cbn. lia.
    + reflexivity.
    + reflexivity.
Qed.

(** X8.  With the loop bounds the wrong way round ([loop_end <= loop_start])
    and at least two repetitions asked for, reaching [loop_end] jumps
    forward: the steps of [[loop_end, loop_start)] are never played, and
    the phase ends after the steps from [loop_start] on (at once when
    [loop_start] is past the table). *)
Theorem partial_loop_reversed_bounds_skip
    r (t : list Step_t) (size loop_start loop_end n : Z) (g : PlayerState) :
  size = Z.of_nat (length t) ->
  0 < loop_end <= loop_start ->
  loop_end <= size ->
  2 <= n ->
  step_num g = 0 ->
  loop_num g = 0 ->
  exists g',
    visits (fun r => ExecuteStepPartialLoop r t size loop_start loop_end n) r
           (Z.to_nat loop_end + Z.to_nat (size - loop_start)) g =
      Some (range 0 loop_end ++ range loop_start size, g') /\
    phase g' = phase g + 1 /\ step_num g' = 0 /\ loop_num g' = 0 /\
    (forall i, loop_end <= i < loop_start ->
       ~ In i (range 0 loop_end ++ range loop_start size)).
Proof.
  intros SZ B1 B2 N2 S0 L0.
  set (exec := fun r => ExecuteStepPartialLoop r t size loop_start loop_end n).
  destruct (partial_plain_segment r t size loop_start loop_end n SZ
              (Z.to_nat loop_end - 1) 0 g) as (g1 & V1 & S1 & P1 & L1);
    try lia.
  fold exec in V1.
  destruct (index_defined t (step_num g1)) as (st & E); [lia|].
  pose proof (ExecuteStepPartialLoop_result r t size loop_start loop_end n
                g1 st E) as X.
  destruct (Z.eqb_spec (step_num g1 + 1) loop_end); [|lia].
  destruct (Z.ltb_spec (loop_num g1) (n - 1)); [|lia].
  cbn [andb] in X.
  assert (NI : forall i, loop_end <= i < loop_start ->
                 ~ In i (range 0 loop_end ++ range loop_start size)).
  { intros i Bi I. apply in_app_or in I.
    destruct I as [I|I]; apply In_range in I; lia. }
  assert (V2 : visits exec r (Z.to_nat loop_end) g =
                 Some (range 0 loop_end,
                       if loop_start >=? size
                       then mkState (phase g1 + 1) 0 0 (egg_slot g1)
                                    (Duration st) (last_report g1)
                       else mkState (phase g1) loop_start (loop_num g1 + 1)
                                    (egg_slot g1) (Duration st)
                                    (last_report g1))).
  { replace (Z.to_nat loop_end) with (Z.to_nat loop_end - 1 + 1)%nat at 1
      by lia.
    rewrite (range_last 0 loop_end) by lia. unfold range.
    replace (Z.to_nat (loop_end - 1 - 0)) with (Z.to_nat loop_end - 1)%nat
      by lia.
    replace (loop_end - 1) with (step_num g1) by lia.
    eapply visits_app; [exact V1|]. unfold exec. cbn [visits].
    rewrite X. reflexivity. }
  destruct (Z.geb_spec loop_start size) as [GE|LT].
  - (* the jump lands past the table: the phase ends at once *)
    eexists. split; [|split; [|split; [|split]]].
    + replace (Z.to_nat (size - loop_start)) with 0%nat by lia.
      unfold range at 2.
      replace (Z.to_nat (size - loop_start)) with 0%nat by lia.
      cbn [zrange]. rewrite Nat.add_0_r, app_nil_r. exact V2.
    + cbn. lia.
    + reflexivity.
    + reflexivity.
    + exact NI.
  - (* the jump lands inside the table: play on from [loop_start] *)
    set (g2 := mkState (phase g1) loop_start (loop_num g1 + 1) (egg_slot g1)
                       (Duration st) (last_report g1)) in *.
    destruct (partial_plain_segment r t size loop_start loop_end n SZ
                (Z.to_nat (size - loop_start) - 1) loop_start g2)
      as (g3 & V3 & S3 & P3 & L3); try lia; [reflexivity|].
    fold exec in V3.
    destruct (index_defined t (step_num g3)) as (st3 & E3); [lia|].
    pose proof (ExecuteStepPartialLoop_result r t size loop_start loop_end n
                  g3 st3 E3) as X3.
    destruct (Z.eqb_spec (step_num g3 + 1) loop_end); [lia|].
    cbn [andb] in X3.
    destruct (Z.geb_spec (step_num g3 + 1) size); [|lia].
    eexists. split; [|split; [|split; [|split]]].
    + eapply visits_app; [exact V2|].
      replace (Z.to_nat (size - loop_start))
        with (Z.to_nat (size - loop_start) - 1 + 1)%nat at 1 by lia.
      rewrite (range_last loop_start size) by lia. unfold range.
      replace (Z.to_nat (size - 1 - loop_start))
        with (Z.to_nat (size - loop_start) - 1)%nat by lia.
      replace (size - 1) with (step_num g3) by lia.
      eapply visits_app; [exact V3|]. unfold exec. cbn [visits].
      rewrite X3. reflexivity.
    + cbn. subst g2. cbn in P3. lia.
    + reflexivity.
    + reflexivity.
    + exact NI.
Qed.

(** ** How long a linear phase lasts *)

Lemma index_middle (pre : list Step_t) st rest :
  index (pre ++ st :: rest) (Z.of_nat (length pre)) = Some st.
Proof.
  unfold index. destruct (Z.ltb_spec (Z.of_nat (length pre)) 0); [lia|].
  rewrite Nat2Z.id, nth_error_app2, Nat.sub_diag by lia. reflexivity.
Qed.

Section LinearPhase.
Variables (t : list Step_t) (p : Z).
Hypothesis dispatch :
  forall r g, phase g = p ->
    main_procedure r g = ExecuteStep r t (Z.of_nat (length t)) g.
Hypothesis durations : forall st, In st t -> 0 <= Duration st.
Hypothesis not_transient : p <> 5.

(** The phase and the slot counter the last step of the table leaves. *)
Let next_phase := if p + 1 =? 5 then 1 else p + 1.
Let next_slot (e : Z) := if p + 1 =? 5 then Z.rem (e + 1) 5 else e.

(** Fetching a step and sitting out its echoes. *)
Lemma linear_step_ticks g st :
  phase g = p -> echoes g <= 0 ->
  index t (step_num g) = Some st ->
  run (1 + Z.to_N (Duration st)) g =
    Some (if step_num g + 1 >=? Z.of_nat (length t)
          then mkState next_phase 0 (loop_num g) (next_slot (egg_slot g))
                       0 (overlay empty_report st)
          else mkState p (step_num g + 1) (loop_num g) (egg_slot g)
                       0 (overlay empty_report st)).
Proof.
  intros P E X.
  assert (D : 0 <= Duration st) by (apply durations, (index_In _ _ _ X)).
  rewrite run_add, run_1. unfold GetNextReport.
  destruct (Z.gtb_spec (echoes g) 0); [lia|].
  rewrite (dispatch _ _ P), (ExecuteStep_result _ _ _ _ _ X).
  unfold repeat_main_procedure, next_phase, next_slot.
  destruct (step_num g + 1 >=? Z.of_nat (length t));
    cbn [phase step_num loop_num egg_slot echoes last_report option_map snd];
    rewrite P.
  - destruct (p + 1 =? 5);
      cbn [phase step_num loop_num egg_slot echoes last_report];
      rewrite replay_run by (cbn; lia); cbn; do 2 f_equal; lia.
  - destruct (Z.eqb_spec p 5); [contradiction|].
    cbn [phase step_num loop_num egg_slot echoes last_report].
    rewrite replay_run by (cbn; lia). cbn. do 2 f_equal. lia.
Qed.

Lemma linear_suffix_ticks suffix :
  forall pre g,
    t = pre ++ suffix -> suffix <> [] ->
    phase g = p -> echoes g <= 0 ->
    step_num g = Z.of_nat (length pre) ->
    exists g',
      run (table_ticks suffix) g = Some g' /\
      phase g' = next_phase /\ step_num g' = 0 /\ echoes g' = 0 /\
      loop_num g' = loop_num g /\ egg_slot g' = next_slot (egg_slot g).
Proof.
  induction suffix as [|st rest IH]; intros pre g T NE P E S; [congruence|].
  assert (X : index t (step_num g) = Some st).
  { rewrite T, S. apply index_middle. }
  pose proof (linear_step_ticks g st P E X) as R.
  assert (L : Z.of_nat (length t) =
              Z.of_nat (length pre) + 1 + Z.of_nat (length rest)).
  { rewrite T, length_app. cbn [length]. lia. }
  cbn [table_ticks]. rewrite run_add, R.
  destruct rest as [|st2 rest].
  - destruct (Z.geb_spec (step_num g + 1) (Z.of_nat (length t)));
      [|cbn [length] in L; lia].
    rewrite run_0. eexists. split; [reflexivity|]. cbn. auto.
  - destruct (Z.geb_spec (step_num g + 1) (Z.of_nat (length t)));
      [cbn [length] in L; lia|].
    destruct (IH (pre ++ [st])
                (mkState p (step_num g + 1) (loop_num g) (egg_slot g) 0
                         (overlay empty_report st)))
      as (g' & R' & ?); cbn; auto; try discriminate; try lia.
    + rewrite T, <- app_assoc. reflexivity.
    + rewrite length_app. cbn [length]. lia.
    + exists g'. split; [exact R'|]. assumption.
Qed.

End LinearPhase.

(** X9.  A linear phase (0, 2 or 4) entered at step 0 with no echo pending
    lasts exactly [table_ticks] calls of its table, one per step plus one
    per echo: 348 calls for the sync table, 976 for a recall.  It leaves
    the next phase at step 0 with no echo pending; after phase 4 the next
    phase is 1 and the slot counter has moved on. *)
Theorem linear_phase_ticks (g : PlayerState) (t : list Step_t) :
  active_table g = Some t ->
  phase g = 0 \/ phase g = 2 \/ phase g = 4 ->
  step_num g = 0 ->
  echoes g <= 0 ->
  exists g',
    run (table_ticks t) g = Some g' /\
    table_ticks t = (if phase g =? 0 then 348%N else 976%N) /\
    phase g' = (if phase g =? 4 then 1 else phase g + 1) /\
    egg_slot g' =
      (if phase g =? 4 then Z.rem (egg_slot g + 1) 5 else egg_slot g) /\
    step_num g' = 0 /\ echoes g' = 0 /\ loop_num g' = loop_num g.
Proof.
  intros A P S E.
  assert (D : forall st, In st t -> 0 <= Duration st).
  { intros st I. apply (table_durations t st); [|exact I].
    unfold active_table in A.
    destruct P as [P | [P | P]]; rewrite P in A; injection A as <-; auto. }
  assert (M : forall r g0, phase g0 = phase g ->
            main_procedure r g0 = ExecuteStep r t (Z.of_nat (length t)) g0).
  { intros r g0 P0. rewrite main_procedure_phase, P0.
    unfold active_table in A.
    destruct P as [P | [P | P]]; rewrite P in A |- *; injection A as <-;
      reflexivity. }
  assert (NE : t <> []).
  { unfold active_table in A.
    destruct P as [P | [P | P]]; rewrite P in A; injection A as <-;
      discriminate. }
  destruct (linear_suffix_ticks t (phase g) M D ltac:(lia) t [] g)
    as (g' & R & Pg & Sg & Eg & Lg & Gg); auto.
  exists g'. split; [exact R|].
  unfold active_table in A.
  destruct P as [P | [P | P]]; rewrite P in *; injection A as <-;
    cbn in Pg, Gg |- *; auto 10.
Qed.

(** ** Echoes stretch the fetches *)

(** X10.  From globals that satisfy the invariant and have no echo pending, any
    number of fetches is defined, and the engine reaches the globals they
    leave after exactly [table_ticks] calls of the fetched steps: one call
    per fetched step plus one per echo, in every phase. *)
Theorem run_is_stretched_fetches (k : nat) :
  forall g,
    engine_invariant g ->
    echoes g = 0 ->
    exists l g',
      fetches k g = Some (l, g') /\
      length l = k /\
      run (table_ticks l) g = Some g' /\
      engine_invariant g' /\ echoes g' = 0.
Proof.
  induction k as [|k IH]; intros g I E.
  - exists [], g. split; [reflexivity|]. split; [reflexivity|].
    split; [reflexivity|]. split; assumption.
  - destruct (invariant_active g I) as (t & st & _ & _ & _ & A & D).
    destruct (fetch_tick g st ltac:(lia) A) as (g1 & T & E1 & _).
    destruct (tick_preserves g I) as (r0 & g0 & T0 & I1 & _).
    assert (g0 = g1) by congruence. subst g0.
    assert (I2 : engine_invariant (sit_out g1)).
    { unfold engine_invariant in *. cbn. lia. }
    destruct (IH (sit_out g1) I2 eq_refl) as (l & g' & F & L & R & I' & E').
    exists (st :: l), g'. cbn [fetches]. rewrite A, T, F.
    split; [reflexivity|]. split; [cbn; lia|]. split; [|auto].
    cbn [table_ticks]. rewrite run_add, run_add, run_1, T.
    cbn [option_map snd]. rewrite replay_run by lia.
    replace (echoes g1 - Z.of_N (Z.to_N (Duration st))) with 0 by lia.
    exact R.
Qed.

(** ** The transport loop *)

Lemma delivered_app a b : delivered (a ++ b) = delivered a ++ delivered b.
Proof.
  induction a as [|c a IH]; [reflexivity|].
  destruct c as [| | |r [|]| |]; cbn; rewrite IH; reflexivity.
Qed.

Lemma delivered_failed_writes r k :
  delivered (repeat (Endpoint_Write_Stream_LE r false) k) = [].
Proof. induction k; cbn; auto. Qed.

Lemma delivered_failed_reads k :
  delivered (repeat (Endpoint_Read_Stream_LE false) k) = [].
Proof. induction k; cbn; auto. Qed.

(** Not configured, or the IN endpoint not ready: the engine is not
    touched and nothing is written. *)
Lemma HID_Task_idle env g :
  device_configured env && is_in_ready env = false ->
  exists calls, HID_Task env g = Some (calls, g) /\ delivered calls = [].
Proof.
  intros I. unfold HID_Task.
  destruct (device_configured env); cbn [negb]; [|eexists; split; reflexivity].
  cbn [andb] in I. rewrite I. eexists. split; [reflexivity|].
  rewrite delivered_app. cbn [delivered app].
  destruct (is_out_received env); [|reflexivity].
  rewrite delivered_app. cbn.
  destruct (is_read_write_allowed env); [|reflexivity].
  rewrite delivered_app, delivered_failed_reads. reflexivity.
Qed.

(** Configured and the IN endpoint ready: one call of [GetNextReport],
    whose report is the one written, however often the write is
    retried. *)
Lemma HID_Task_served env g r g' :
  device_configured env && is_in_ready env = true ->
  GetNextReport g = Some (r, g') ->
  exists calls, HID_Task env g = Some (calls, g') /\ delivered calls = [r].
Proof.
  intros I T. apply andb_true_iff in I. destruct I as (C & R).
  unfold HID_Task. rewrite C, R, T. cbn [negb].
  eexists. split; [reflexivity|].
  rewrite !delivered_app, delivered_failed_writes.
  cbn [delivered app].
  destruct (is_out_received env); [|reflexivity].
  rewrite delivered_app. cbn.
  destruct (is_read_write_allowed env); [|reflexivity].
  rewrite delivered_app, delivered_failed_reads. reflexivity.
Qed.

Lemma main_loop_from envs :
  forall n g,
    state_at (N.of_nat n) = Some g ->
    exists calls g',
      main_loop envs g = Some (calls, g') /\
      state_at (N.of_nat (n + served envs)) = Some g' /\
      map Some (delivered calls) =
        map (fun j => report_at (N.of_nat j)) (seq n (served envs)).
Proof.
  induction envs as [|env envs IH]; intros n g E.
  - exists [], g. cbn. rewrite Nat.add_0_r. auto.
  - unfold served in *. cbn [filter main_loop].
    destruct (device_configured env && is_in_ready env) eqn:I.
    + destruct (reachable_invariant (N.of_nat n)) as (g0 & E0 & Inv).
      assert (g0 = g) by congruence. subst g0.
      destruct (tick_preserves g Inv) as (r & g1 & T & _ & _).
      destruct (HID_Task_served env g r g1 I T) as (calls & -> & D).
      assert (E1 : state_at (N.of_nat (S n)) = Some g1).
      { rewrite Nat2N.inj_succ, (state_at_succ _ g E), T. reflexivity. }
      destruct (IH (S n) g1 E1) as (calls' & g' & -> & E' & D').
      eexists _, g'. split; [reflexivity|].
      cbn [length]. rewrite Nat.add_succ_r. split; [exact E'|].
      rewrite delivered_app. cbn [delivered app seq map].
      rewrite D, (report_at_state _ g E), T. cbn. f_equal. exact D'.
    + destruct (HID_Task_idle env g I) as (calls & -> & D).
      destruct (IH n g E) as (calls' & g' & -> & E' & D').
      eexists _, g'. split; [reflexivity|]. split; [exact E'|].
      rewrite delivered_app. cbn [delivered]. rewrite D. exact D'.
Qed.

(** X11.  Whatever the USB stack answers during the first iterations of the
    main loop, the run is defined, [GetNextReport] is called once in each
    iteration that finds the device configured and the IN endpoint ready
    and in no other, and the reports written are the engine's reports, in
    order, none skipped and none repeated, however often a write or a
    read is retried. *)
Theorem main_loop_delivers_engine_reports (envs : list usb_poll) :
  exists calls g',
    main_loop envs initial_state = Some (calls, g') /\
    state_at (N.of_nat (served envs)) = Some g' /\
    map Some (delivered calls) =
      map (fun j => report_at (N.of_nat j)) (seq 0 (served envs)).
Proof. apply (main_loop_from envs 0 initial_state). reflexivity. Qed.

End EngineFacts.

(** * Concrete runs *)

Lemma echo_replay_frame_witness :
  exists g',
    GetNextReport (hdr := pokken_pad)
      (mkState 1 1 0 0 300 (mkReport 0 8 128 128 128 128)) =
      Some (mkReport 0 8 128 128 128 128, g') /\
    echoes g' = 299 /\ phase g' = 1 /\ step_num g' = 1 /\
    loop_num g' = 0 /\ egg_slot g' = 0 /\
    last_report g' = mkReport 0 8 128 128 128 128.
Proof.
  apply (echo_replay_frame (hdr := pokken_pad)
           (mkState 1 1 0 0 300 (mkReport 0 8 128 128 128 128))).
  reflexivity.
Defined.

(** C1 as stated fails: the first sync step has duration 75, yet the call
    after 75 calls is still a replay (the step occupies 76 calls). *)
Lemma echo_stretching_off_by_one :
  ~ (forall g st,
       replays g = false ->
       active_step (hdr := pokken_pad) g = Some st ->
       occupies (hdr := pokken_pad) g (Z.to_N (Duration st))).
Proof.
  intros C.
  destruct (C initial_state (mkStep 0 128 128 75) eq_refl eq_refl)
    as (_ & _ & g' & R & F).
  vm_compute in R. injection R as <-. discriminate F.
Qed.

Lemma echo_stretching_witness :
  occupies (hdr := pokken_pad) initial_state 76 /\
  exists r,
    forall j, (j < 76)%N ->
      exists gj, run (hdr := pokken_pad) j initial_state = Some gj /\
                 option_map fst (GetNextReport (hdr := pokken_pad) gj) = Some r.
Proof.
  apply (echo_stretching (hdr := pokken_pad) initial_state
           (mkStep 0 128 128 75)); [reflexivity | reflexivity | cbn; lia].
Defined.

(** C6 as stated fails: at the last step of the table with a non-zero loop
    count, the partial-loop executor clears the loop count and the linear
    executor leaves it. *)
Lemma partial_loop_once_differs :
  ~ (forall r t size ls le g,
       ExecuteStepPartialLoop r t size ls le 1 g = ExecuteStep r t size g).
Proof.
  intros C.
  specialize (C (empty_report (hdr := pokken_pad)) (GetEgg (hdr := pokken_pad))
                22 13 15 (mkState 1 21 3 0 0 (mkReport 0 0 0 0 0 0))).
  vm_compute in C. discriminate C.
Qed.

Lemma partial_loop_once_is_linear_witness :
  ExecuteStepPartialLoop (empty_report (hdr := pokken_pad))
    (GetEgg (hdr := pokken_pad)) 22 13 15 1
    (mkState 1 14 0 0 0 (mkReport 0 0 0 0 0 0)) =
  ExecuteStep (empty_report (hdr := pokken_pad)) (GetEgg (hdr := pokken_pad)) 22
    (mkState 1 14 0 0 0 (mkReport 0 0 0 0 0 0)).
Proof.
  apply (partial_loop_once_is_linear (empty_report (hdr := pokken_pad))
           (GetEgg (hdr := pokken_pad)) 22 13 15
           (mkState 1 14 0 0 0 (mkReport 0 0 0 0 0 0))).
  reflexivity.
Defined.

(** The partial loop of phase 1 on the fifth round: 30 reads, 13 and 14
    five times each. *)
Lemma partial_loop_bounds_witness :
  (forall k, (k < 30)%nat ->
     exists l gk,
       visits (fun r => ExecuteStepPartialLoop r (GetEgg (hdr := pokken_pad))
                          22 13 15 5)
              (empty_report (hdr := pokken_pad)) k
              (mkState 1 0 0 4 0 (mkReport 0 0 0 0 0 0)) = Some (l, gk) /\
       phase gk = 1) /\
  (exists g',
     visits (fun r => ExecuteStepPartialLoop r (GetEgg (hdr := pokken_pad))
                        22 13 15 5)
            (empty_report (hdr := pokken_pad)) 30
            (mkState 1 0 0 4 0 (mkReport 0 0 0 0 0 0)) =
       Some (range 0 13 ++ concat (repeat (range 13 15) 5) ++ range 15 22,
             g') /\
     phase g' = 2 /\ step_num g' = 0 /\ loop_num g' = 0) /\
  (forall i, 0 <= i < 22 ->
     count_occ Z.eq_dec
       (range 0 13 ++ concat (repeat (range 13 15) 5) ++ range 15 22) i =
       if (13 <=? i) && (i <? 15) then 5%nat else 1%nat).
Proof.
  apply (proj1 (partial_loop_bounds (hdr := pokken_pad))
           (empty_report (hdr := pokken_pad)) (GetEgg (hdr := pokken_pad))
           22 13 15 5 (mkState 1 0 0 4 0 (mkReport 0 0 0 0 0 0)));
    [reflexivity | lia | lia | reflexivity | reflexivity].
Defined.

Lemma phase_scheduler_cycle_witness :
  exists g g' c,
    state_at (hdr := pokken_pad) 48612 = Some g /\
    state_at (hdr := pokken_pad) 48613 = Some g' /\
    completions_at (hdr := pokken_pad) 48612 = Some (g, c) /\
    sched_step (phase g, egg_slot g) (phase g', egg_slot g') /\
    (phase g = 0 <-> (48612 < 338)%N) /\
    egg_slot g = Z.of_N c mod 5 /\
    exists m gm,
      (48612 < m)%N /\ state_at (hdr := pokken_pad) m = Some gm /\
      phase gm <> phase g.
Proof.
  exact (proj1 (proj2 (proj2 (phase_scheduler_cycle (hdr := pokken_pad))))
           48612%N).
Defined.

Lemma linear_progression_witness :
  (forall k, (k < 8)%nat ->
     exists l gk st gk',
       visits (fun r => ExecuteStep r (SyncController (hdr := pokken_pad)) 8)
              (empty_report (hdr := pokken_pad)) k initial_state =
         Some (l, gk) /\
       phase gk = 0 /\ step_num gk = Z.of_nat k /\
       index (SyncController (hdr := pokken_pad)) (Z.of_nat k) = Some st /\
       ExecuteStep (empty_report (hdr := pokken_pad))
                   (SyncController (hdr := pokken_pad)) 8 gk =
         Some (mkReport (Z.lor 0 (sButton st)) 8 (sLX st) (sLY st) 128 128,
               gk') /\
       echoes gk' = Duration st) /\
  (exists g',
     visits (fun r => ExecuteStep r (SyncController (hdr := pokken_pad)) 8)
            (empty_report (hdr := pokken_pad)) 8 initial_state =
       Some (range 0 8, g') /\
     phase g' = 1 /\ step_num g' = 0).
Proof.
  apply (linear_progression (empty_report (hdr := pokken_pad))
           (SyncController (hdr := pokken_pad)) 8 initial_state);
    [reflexivity | lia | reflexivity].
Defined.

Lemma full_loop_count_witness :
  (forall k, (k < 110)%nat ->
     exists l gk,
       visits (fun r => ExecuteStepLoop r (BikeBig (hdr := pokken_pad)) 2 55)
              (empty_report (hdr := pokken_pad)) k
              (mkState 3 0 0 0 0 (mkReport 0 0 0 0 0 0)) = Some (l, gk) /\
       phase gk = 3) /\
  (exists g',
     visits (fun r => ExecuteStepLoop r (BikeBig (hdr := pokken_pad)) 2 55)
            (empty_report (hdr := pokken_pad)) 110
            (mkState 3 0 0 0 0 (mkReport 0 0 0 0 0 0)) =
       Some (concat (repeat (range 0 2) 55), g') /\
     phase g' = 4 /\ loop_num g' = 0 /\ step_num g' = 0).
Proof.
  apply (full_loop_count (empty_report (hdr := pokken_pad))
           (BikeBig (hdr := pokken_pad)) 2 55
           (mkState 3 0 0 0 0 (mkReport 0 0 0 0 0 0)));
    [reflexivity | lia | lia | reflexivity | reflexivity].
Defined.

(** After 349 calls the engine is in the looping phase 1, one step in. *)
Lemma player_state_invariant_witness :
  exists g,
    state_at (hdr := pokken_pad) 349 = Some g /\
    phase g = 1 /\ 0 <= loop_num g < egg_slot g + 1.
Proof.
  destruct (player_state_invariant (hdr := pokken_pad) 349)
    as (g & t & st & E & _ & _ & _ & L1 & _).
  assert (P : phase g = 1).
  { vm_compute in E. injection E as <-. reflexivity. }
  exists g. split; [exact E|]. split; [exact P|]. apply L1. exact P.
Defined.

(** The very first report: step 0 of the sync table is a plain wait. *)
Lemma report_neutral_fields_witness :
  report_at (hdr := pokken_pad) 0 = Some (mkReport 0 8 128 128 128 128).
Proof.
  destruct (proj1 (report_neutral_fields (hdr := pokken_pad)) 0%N)
    as (g & r & st & _ & R & _ & _ & _ & S & N).
  vm_compute in S. injection S as <-.
  rewrite R. f_equal. apply N; reflexivity.
Defined.

(** The second call replays the report of the first. *)
Lemma replay_is_synthesized_witness :
  exists m gm gx r st,
    (m < 1)%N /\ state_at (hdr := pokken_pad) m = Some gm /\
    replays gm = false /\ 0 <= phase gm <= 4 /\
    active_step (hdr := pokken_pad) gm = Some st /\
    r = overlay (empty_report (hdr := pokken_pad)) st /\
    main_procedure (hdr := pokken_pad) (empty_report (hdr := pokken_pad)) gm =
      Some (r, gx) /\
    state_at (hdr := pokken_pad) (N.succ m) =
      Some (mkState (phase (repeat_main_procedure gx))
                    (step_num (repeat_main_procedure gx))
                    (loop_num (repeat_main_procedure gx))
                    (egg_slot (repeat_main_procedure gx))
                    (echoes (repeat_main_procedure gx)) r) /\
    report_at (hdr := pokken_pad) m = Some r /\
    report_at (hdr := pokken_pad) 1 = Some r /\
    mkReport 0 8 128 128 128 128 = r.
Proof.
  apply (proj2 (proj2 (replay_is_synthesized (hdr := pokken_pad))) 1%N
           (mkState 0 1 0 0 75 (mkReport 0 8 128 128 128 128)));
    reflexivity.
Defined.

Lemma last_report_is_returned_witness :
  last_report (mkState 0 1 0 0 75 (mkReport 0 8 128 128 128 128)) =
    mkReport 0 8 128 128 128 128.
Proof.
  apply (last_report_is_returned (hdr := pokken_pad) initial_state).
  reflexivity.
Defined.

Lemma engine_eventually_periodic_witness :
  state_at (hdr := pokken_pad) (349 + 48565) =
    state_at (hdr := pokken_pad) 349 /\
  report_at (hdr := pokken_pad) (349 + 48565) =
    report_at (hdr := pokken_pad) 349.
Proof.
  apply (engine_eventually_periodic (hdr := pokken_pad) 349). lia.
Defined.

Lemma stray_phase_is_absorbing_witness :
  GetNextReport (hdr := pokken_pad)
    (mkState 6 3 2 1 0 (mkReport 4 8 128 128 128 128)) =
    Some (mkReport 0 8 128 128 128 128,
          mkState 6 3 2 1 0 (mkReport 0 8 128 128 128 128)) /\
  run (hdr := pokken_pad) 10
    (mkState 6 3 2 1 0 (mkReport 4 8 128 128 128 128)) =
    Some (mkState 6 3 2 1 0 (mkReport 0 8 128 128 128 128)).
Proof.
  apply (stray_phase_is_absorbing (hdr := pokken_pad)
           (mkState 6 3 2 1 0 (mkReport 4 8 128 128 128 128)) 9);
    cbn; lia.
Defined.

(** A repetition count of zero on the two steps of [BikeBig]. *)
Lemma full_loop_plays_at_least_once_witness :
  (forall k, (k < 2)%nat ->
     exists l gk,
       visits (fun r => ExecuteStepLoop r (BikeBig (hdr := pokken_pad)) 2 0)
              (empty_report (hdr := pokken_pad)) k
              (mkState 3 0 0 0 0 (mkReport 0 0 0 0 0 0)) = Some (l, gk) /\
       phase gk = 3) /\
  (exists g',
     visits (fun r => ExecuteStepLoop r (BikeBig (hdr := pokken_pad)) 2 0)
            (empty_report (hdr := pokken_pad)) 2
            (mkState 3 0 0 0 0 (mkReport 0 0 0 0 0 0)) =
       Some (range 0 2, g') /\
     phase g' = 4 /\ loop_num g' = 0 /\ step_num g' = 0).
Proof.
  apply (full_loop_plays_at_least_once (empty_report (hdr := pokken_pad))
           (BikeBig (hdr := pokken_pad)) 2 0
           (mkState 3 0 0 0 0 (mkReport 0 0 0 0 0 0)));
    [reflexivity | lia | lia | reflexivity | cbn; lia].
Defined.

(** A [loop_end] of 30 on the 22 steps of [GetEgg]. *)
Lemma partial_loop_without_jump_witness :
  (forall k, (k < 22)%nat ->
     exists l gk,
       visits (fun r => ExecuteStepPartialLoop r (GetEgg (hdr := pokken_pad))
                          22 13 30 5)
              (empty_report (hdr := pokken_pad)) k
              (mkState 1 0 0 4 0 (mkReport 0 0 0 0 0 0)) = Some (l, gk) /\
       phase gk = 1) /\
  (exists g',
     visits (fun r => ExecuteStepPartialLoop r (GetEgg (hdr := pokken_pad))
                        22 13 30 5)
            (empty_report (hdr := pokken_pad)) 22
            (mkState 1 0 0 4 0 (mkReport 0 0 0 0 0 0)) =
       Some (range 0 22, g') /\
     phase g' = 2 /\ loop_num g' = 0 /\ step_num g' = 0).
Proof.
  apply (partial_loop_without_jump (empty_report (hdr := pokken_pad))
           (GetEgg (hdr := pokken_pad)) 22 13 30 5
           (mkState 1 0 0 4 0 (mkReport 0 0 0 0 0 0)));
    [reflexivity | lia | lia | reflexivity | cbn; lia].
Defined.

(** The bounds of phase 1 swapped: steps 13 and 14 are never played. *)
Lemma partial_loop_reversed_bounds_skip_witness :
  exists g',
    visits (fun r => ExecuteStepPartialLoop r (GetEgg (hdr := pokken_pad))
                       22 15 13 5)
           (empty_report (hdr := pokken_pad)) 20
           (mkState 1 0 0 4 0 (mkReport 0 0 0 0 0 0)) =
      Some (range 0 13 ++ range 15 22, g') /\
    phase g' = 2 /\ step_num g' = 0 /\ loop_num g' = 0 /\
    (forall i, 13 <= i < 15 -> ~ In i (range 0 13 ++ range 15 22)).
Proof.
  apply (partial_loop_reversed_bounds_skip (empty_report (hdr := pokken_pad))
           (GetEgg (hdr := pokken_pad)) 22 15 13 5
           (mkState 1 0 0 4 0 (mkReport 0 0 0 0 0 0)));
    [reflexivity | lia | lia | lia | reflexivity | reflexivity].
Defined.

(** The sync phase: 348 calls from power-on. *)
Lemma linear_phase_ticks_witness :
  exists g',
    run (hdr := pokken_pad) 348 initial_state = Some g' /\
    348%N = 348%N /\
    phase g' = 1 /\ egg_slot g' = 0 /\
    step_num g' = 0 /\ echoes g' = 0 /\ loop_num g' = 0.
Proof.
  apply (linear_phase_ticks (hdr := pokken_pad) initial_state
           (SyncController (hdr := pokken_pad)));
    [reflexivity | left; reflexivity | reflexivity | cbn; lia].
Defined.

(** The eight fetches of the sync phase, from power-on. *)
Lemma run_is_stretched_fetches_witness :
  exists l g',
    fetches (hdr := pokken_pad) 8 initial_state = Some (l, g') /\
    length l = 8%nat /\
    run (hdr := pokken_pad) (table_ticks l) initial_state = Some g' /\
    engine_invariant g' /\ echoes g' = 0.
Proof.
  apply (run_is_stretched_fetches (hdr := pokken_pad) 8 initial_state);
    [apply initial_invariant | reflexivity].
Defined.
